(** * qcmon.utilities: masking, ROI means, correlation graphs, scaling

    A shallow embedding of [qcmon/utilities.py] (the numerical helpers
    [check_dims], [check_mask], [maskdata], [get_mean_roi], [roi_graph],
    [translate] and [scale_timeseries]) together with the NumPy
    primitives they call, and the properties of the specification
    proved over it.

    Numbers.  The Python code is dtype-generic: it only uses the
    arithmetic and comparison operators of whatever NumPy hands it.  The
    embedding follows that: every function is written over a [Numeric]
    interface.  Two instances are given:
    - [float64], IEEE-754 binary64 ([PrimFloat]), which evaluates, and
    - [exact], the real numbers extended with one undefined value
      ([NaN]), the exact-arithmetic reading of the same operators, in
      which the algebraic statements are proved.
    Statements about indices, shapes, errors and selection are proved
    for every instance; statements about order for every instance whose
    comparisons satisfy [OrderedNumeric], which both do.  Statements
    about the value of a quotient (a diagonal entry that is 1, a maximum
    that is 1) are proved in [exact]; in [float64] they fail once an
    intermediate result leaves the binary64 range, and an input where
    that happens is given with each. *)

From Stdlib Require Import String Ascii Bool Arith Lia ZArith List Sorted Permutation.
From Stdlib Require Import Floats Reals Lra.
Import ListNotations.

Set Implicit Arguments.

(** ** Numbers *)

Class Numeric (num : Type) : Type := {
  n0 : num;
  n1 : num;
  nadd : num -> num -> num;
  nsub : num -> num -> num;
  nmul : num -> num -> num;
  ndiv : num -> num -> num;
  nsqrt : num -> num;
  neqb : num -> num -> bool;   (* Python [==] *)
  nltb : num -> num -> bool    (* Python [<]; [a > b] is [nltb b a] *)
}.

Section Derived.
Context {num : Type} {N : Numeric num}.

(** [x != x], the NaN test. *)
Definition isnan (x : num) : bool := negb (neqb x x).

(** The value of [0/0]. *)
Definition nan : num := ndiv n0 n0.

(** Conversion of a count to a number. *)
Fixpoint of_nat (n : nat) : num :=
  match n with
  | O => n0
  | S k => nadd (of_nat k) n1
  end.

Definition of_Z (z : Z) : num :=
  match z with
  | Z0 => n0
  | Zpos p => of_nat (Pos.to_nat p)
  | Zneg p => nsub n0 (of_nat (Pos.to_nat p))
  end.

(** [np.sum] of a vector: accumulation from zero, left to right. *)
Definition nsum (l : list num) : num := fold_left nadd l n0.

(** [np.mean] of a vector: sum over count. *)
Definition mean (l : list num) : num := ndiv (nsum l) (of_nat (length l)).
End Derived.

(** What the comparisons of a number type are relied on for: [<] is a
    strict order, total on the values that equal themselves (all but
    NaN), and [==] is compatible with it. *)
Class OrderedNumeric {num : Type} (N : Numeric num) : Prop := {
  neqb_sym : forall a b, neqb a b = true -> neqb b a = true;
  neqb_trans : forall a b c, neqb a b = true -> neqb b c = true -> neqb a c = true;
  nltb_trans : forall a b c, nltb a b = true -> nltb b c = true -> nltb a c = true;
  nltb_irrefl : forall a, nltb a a = false;
  nltb_number_l : forall a b, nltb a b = true -> neqb a a = true;
  nltb_number_r : forall a b, nltb a b = true -> neqb b b = true;
  nltb_total : forall a b, neqb a a = true -> neqb b b = true ->
                           nltb a b = true \/ neqb a b = true \/ nltb b a = true;
  nltb_neqb_l : forall a b c, neqb a b = true -> nltb a c = true -> nltb b c = true;
  nltb_neqb_r : forall a b c, neqb a b = true -> nltb c a = true -> nltb c b = true
}.

(** *** IEEE binary64 *)

#[export] Instance float64 : Numeric float := {
  n0 := 0%float;
  n1 := 1%float;
  nadd := PrimFloat.add;
  nsub := PrimFloat.sub;
  nmul := PrimFloat.mul;
  ndiv := PrimFloat.div;
  nsqrt := PrimFloat.sqrt;
  neqb := PrimFloat.eqb;
  nltb := PrimFloat.ltb
}.

(** *** Exact arithmetic

    A real number, or [NaN] for every undefined result (division by
    zero, root of a negative number, anything computed from [NaN]). *)

Inductive xreal : Type :=
| Fin (r : R)
| NaN.

Definition xlift2 (f : R -> R -> R) (a b : xreal) : xreal :=
  match a, b with
  | Fin x, Fin y => Fin (f x y)
  | _, _ => NaN
  end.

Definition xdiv (a b : xreal) : xreal :=
  match a, b with
  | Fin x, Fin y => if Req_dec_T y 0 then NaN else Fin (x / y)
  | _, _ => NaN
  end.

Definition xsqrt (a : xreal) : xreal :=
  match a with
  | Fin x => if Rlt_dec x 0 then NaN else Fin (sqrt x)
  | NaN => NaN
  end.

Definition xeqb (a b : xreal) : bool :=
  match a, b with
  | Fin x, Fin y => if Req_dec_T x y then true else false
  | _, _ => false
  end.

Definition xltb (a b : xreal) : bool :=
  match a, b with
  | Fin x, Fin y => if Rlt_dec x y then true else false
  | _, _ => false
  end.

#[export] Instance exact : Numeric xreal := {
  n0 := Fin 0;
  n1 := Fin 1;
  nadd := xlift2 Rplus;
  nsub := xlift2 Rminus;
  nmul := xlift2 Rmult;
  ndiv := xdiv;
  nsqrt := xsqrt;
  neqb := xeqb;
  nltb := xltb
}.

(** ** Exceptions

    The module raises bare [Exception]s that differ by message; the
    specification names them by kind.  One constructor per kind, the
    message kept.  [ValueError] and [IndexError] are NumPy's own. *)

Inductive error : Type :=
| ShapeMismatch (msg : string)
| InvalidMask (msg : string)
| InvalidArgument (msg : string)
| ValueError (msg : string)
| IndexError.

Inductive result (A : Type) : Type :=
| Ok (a : A)
| Err (e : error).

Arguments Ok {A} a.
Arguments Err {A} e.

Definition bind {A B : Type} (r : result A) (k : A -> result B) : result B :=
  match r with
  | Ok a => k a
  | Err e => Err e
  end.

Notation "x <- e ;; k" := (bind e (fun x => k))
  (at level 61, e at next level, right associativity).
Notation "' p <- e ;; k" := (bind e (fun p => k))
  (at level 61, p pattern, e at next level, right associativity).

Fixpoint mapM {A B : Type} (f : A -> result B) (l : list A) : result (list B) :=
  match l with
  | [] => Ok []
  | a :: l' => b <- f a ;; bs <- mapM f l' ;; Ok (b :: bs)
  end.

(** ** NumPy helpers that do not depend on the number type *)

Section Unique.
Variable A : Type.
Variable lt : A -> A -> bool.   (* the sort order *)
Variable ne : A -> A -> bool.   (* [!=] *)

(** [a] may stand before [b] in a sorted array. *)
Definition before (a b : A) : Prop := lt b a = false.

Fixpoint insert (x : A) (l : list A) : list A :=
  match l with
  | [] => [x]
  | h :: t => if lt x h then x :: h :: t else h :: insert x t
  end.

Fixpoint sort (l : list A) : list A :=
  match l with
  | [] => []
  | x :: t => insert x (sort t)
  end.

(** [aux[1:] != aux[:-1]]: an element is kept when it differs from the
    one just before it in the sorted array. *)
Fixpoint keep_changes (prev : A) (l : list A) : list A :=
  match l with
  | [] => []
  | x :: t => if ne x prev then x :: keep_changes x t else keep_changes x t
  end.

(** [np.unique]: sort, then drop repeats. *)
Definition unique (l : list A) : list A :=
  match sort l with
  | [] => []
  | x :: t => x :: keep_changes x t
  end.
End Unique.

(** Index arrays. *)
Definition unique_idx : list nat -> list nat :=
  unique Nat.ltb (fun a b => negb (Nat.eqb a b)).

(** [np.setdiff1d(ar1, ar2)]: the sorted unique values of [ar1] that are
    not in [ar2]. *)
Definition setdiff1d (ar1 ar2 : list nat) : list nat :=
  filter (fun i => negb (existsb (Nat.eqb i) (unique_idx ar2))) (unique_idx ar1).

(** First component of [np.where] on a 2-D boolean array: the row index
    of every true cell, in row-major order. *)
Fixpoint where0_from (i : nat) (b : list (list bool)) : list nat :=
  match b with
  | [] => []
  | r :: b' => map (fun _ => i) (filter (fun c => c) r) ++ where0_from (S i) b'
  end.

Definition where0 (b : list (list bool)) : list nat := where0_from 0 b.

(** [np.where] on a 1-D boolean array. *)
Fixpoint where1_from (i : nat) (b : list bool) : list nat :=
  match b with
  | [] => []
  | c :: b' => (if c then [i] else []) ++ where1_from (S i) b'
  end.

Definition where1 (b : list bool) : list nat := where1_from 0 b.

(** Broadcasting of one axis: equal lengths pair up, a length-one side
    is repeated, anything else is NumPy's "operands could not be
    broadcast together". *)
Definition broadcast_msg : string := "operands could not be broadcast together".

Definition broadcast {X Y Z : Type} (f : X -> Y -> result Z)
    (xs : list X) (ys : list Y) : result (list Z) :=
  if Nat.eqb (length xs) (length ys) then
    mapM (fun p => f (fst p) (snd p)) (combine xs ys)
  else
    match xs, ys with
    | [x], _ => mapM (fun y => f x y) ys
    | _, [y] => mapM (fun x => f x y) xs
    | _, _ => Err (ValueError broadcast_msg)
    end.

Definition broadcast_dim (a b : nat) : nat :=
  if Nat.eqb a 1 then b else a.

(** ** Arrays and Python arguments *)

Section Utilities.
Context {num : Type} {N : Numeric num}.

(** A 2-D array: [np.shape(a)] is [(length (rows a), ncols a)]. *)
Record array2 : Type := mkArray { ncols : nat; rows : list (list num) }.

Definition nrows (a : array2) : nat := length (rows a).

(** Every array is rectangular. *)
Definition wf (a : array2) : Prop :=
  Forall (fun r => length r = ncols a) (rows a).

(** One entry of the [threshold] list: a number, or a sequence of
    numbers (which NumPy broadcasts against the mask column). *)
Inductive thr : Type :=
| TNum (t : num)
| TSeq (ts : list num).

(** What a caller may pass as [threshold]. *)
Inductive pyarg : Type :=
| PyList (ts : list thr)
| PyTuple (ts : list thr)
| PyNum (t : num).

(** What a caller may pass as [val] to [get_mean_roi]. *)
Inductive label : Type :=
| LInt (n : Z)          (* a Python [int] *)
| LNum (x : num)        (* a NumPy scalar or Python float *)
| LSeq (xs : list num). (* a list of labels *)

(** *** check_dims, check_mask *)

Definition check_dims (data mask : array2) : result unit :=
  if negb (Nat.eqb (nrows data) (nrows mask)) then
    Err (ShapeMismatch "Your data and mask are not in from the same space!")
  else Ok tt.

Definition check_mask (mask : array2) : result unit :=
  if Nat.ltb 1 (ncols mask) then
    Err (InvalidMask "Your mask can't contain multiple values per voxel!")
  else Ok tt.

(** *** maskdata *)

(** [mask <op> t] as a boolean array. *)
Definition compare (op : num -> num -> bool) (mask : array2) (t : thr)
  : result (list (list bool)) :=
  match t with
  | TNum t => Ok (map (map (fun m => op m t)) (rows mask))
  | TSeq ts => mapM (fun r => broadcast (fun m t => Ok (op m t)) r ts) (rows mask)
  end.

Definition gtb (m t : num) : bool := nltb t m.

(** One turn of the [for t in threshold] loop. *)
Definition add_threshold (rule : string) (mask : array2)
    (idx : list nat) (t : thr) : result (list nat) :=
  if String.eqb rule "=" then
    b <- compare neqb mask t ;; Ok (unique_idx (idx ++ where0 b))
  else if String.eqb rule ">" then
    b <- compare gtb mask t ;; Ok (unique_idx (idx ++ where0 b))
  else if String.eqb rule "<" then
    b <- compare nltb mask t ;; Ok (unique_idx (idx ++ where0 b))
  else Ok idx.

Fixpoint thresholds_loop (rule : string) (mask : array2)
    (idx : list nat) (threshold : list thr) : result (list nat) :=
  match threshold with
  | [] => Ok idx
  | t :: rest =>
      idx' <- add_threshold rule mask idx t ;;
      thresholds_loop rule mask idx' rest
  end.

Definition valid_rule (rule : string) : bool :=
  existsb (String.eqb rule) ["="; ">"; "<"]%string.

(** [np.sum(data, axis=1)]. *)
Definition sum_axis1 (data : array2) : list num := map nsum (rows data).

(** [data[idx, :]].  (NumPy builds [idx] as a float array of whole
    numbers; the NumPy releases this Python 2 module runs on take it as
    an index.  Here an index is a [nat].) *)
Definition take_rows (data : array2) (idx : list nat) : result array2 :=
  rs <- mapM (fun i => match nth_error (rows data) i with
                       | Some r => Ok r
                       | None => Err IndexError
                       end) idx ;;
  Ok (mkArray (ncols data) rs).

Definition maskdata (data mask : array2) (rule : string) (threshold : pyarg)
  : result (array2 * list nat) :=
  _ <- check_dims data mask ;;
  _ <- check_mask mask ;;
  if negb (valid_rule rule) then
    Err (InvalidArgument "Your threshold rule must be '=', '>', or '<'!")
  else
    match threshold with
    | PyList ts =>
        idx <- thresholds_loop rule mask [] ts ;;
        let idx_zeros := where1 (map (fun s => neqb s n0) (sum_axis1 data)) in
        let idx := setdiff1d idx idx_zeros in
        data' <- take_rows data idx ;;
        Ok (data', idx)
    | _ => Err (InvalidArgument "Your threshold(s) must be in a list.")
    end.

(** *** get_mean_roi *)

Definition column (j : nat) (a : array2) : list num :=
  map (fun r => nth j r n0) (rows a).

(** [np.nanmean] of one column: NaNs are replaced by zero in the sum and
    left out of the count; the mean is the quotient, [0/0] when nothing
    is counted. *)
Definition nanmean1 (col : list num) : num :=
  let arr := map (fun x => if isnan x then n0 else x) col in
  let cnt := length (filter (fun x => negb (isnan x)) col) in
  ndiv (nsum arr) (of_nat cnt).

(** [np.nanmean(a, axis=0)]. *)
Definition nanmean_axis0 (a : array2) : list num :=
  map (fun j => nanmean1 (column j a)) (seq 0 (ncols a)).

(** The entry of the one-element list [[val]] that reaches [maskdata]:
    a Python [int] has first been wrapped into a list of its own. *)
Definition label_threshold (val : label) : thr :=
  match val with
  | LInt n => TSeq [of_Z n]
  | LNum x => TNum x
  | LSeq xs => TSeq xs
  end.

Definition get_mean_roi (data mask : array2) (val : label) : result (list num) :=
  '(data', idx) <- maskdata data mask "=" (PyList [label_threshold val]) ;;
  Ok (nanmean_axis0 data').

(** *** roi_graph *)

(** The order NumPy sorts by: [<], with NaN after everything else. *)
Definition np_lt (a b : num) : bool :=
  nltb a b || (isnan b && negb (isnan a)).

Definition unique_num : list num -> list num :=
  unique np_lt (fun a b => negb (neqb a b)).

(** Below in the order, or followed by a NaN: how the entries of a
    sorted array without repeats stand to one another. *)
Definition below (a y : num) : Prop := nltb a y = true \/ neqb y y = false.

(** [filter(lambda x: x > 0, np.unique(mask))]. *)
Definition rois (mask : array2) : list num :=
  filter (fun x => gtb x n0) (unique_num (concat (rows mask))).

(** [ts[i, :] = v] for a row of width [T]. *)
Definition set_row (T : nat) (v : list num) : result (list num) :=
  if Nat.eqb (length v) T then Ok v
  else match v with
       | [x] => Ok (repeat x T)
       | _ => Err (ValueError "could not broadcast input array")
       end.

(** The array [ts] after the loop: one mean time series per region. *)
Definition roi_timeseries (data mask : array2) : result (list (list num)) :=
  mapM (fun roi => v <- get_mean_roi data mask (LNum roi) ;;
                   set_row (ncols data) v)
       (rois mask).

Definition demean (x : list num) : list num :=
  let m := mean x in map (fun v => nsub v m) x.

Definition dot (x y : list num) : num :=
  nsum (map (fun p => nmul (fst p) (snd p)) (combine x y)).

(** [np.cov] entry for two rows of [T] observations: the product of the
    demeaned rows, times [1 / fact] with [fact = T - 1], a divisor that
    is not positive being replaced by zero. *)
Definition cov (T : nat) (x y : list num) : num :=
  nmul (dot (demean x) (demean y)) (ndiv n1 (of_nat (T - 1))).

(** [np.minimum] and [np.maximum]: a NaN on either side wins. *)
Definition minimum (a b : num) : num :=
  if isnan a then a else if nltb a b then a else b.

Definition maximum (a b : num) : num :=
  if isnan a then a else if gtb a b then a else b.

(** [np.clip(x, lo, hi)]. *)
Definition clip (x lo hi : num) : num := minimum (maximum x lo) hi.

(** What [np.corrcoef] hands back: a matrix, or, for a single row, a
    scalar that cannot be indexed. *)
Inductive correlations : Type :=
| Scalar (r : num)
| Matrix (R : list (list num)).

(** [np.corrcoef] of the rows of [x].  With [c] the covariance matrix:
    a single row gives the scalar [c / c]; otherwise every row of [c] is
    divided by the root of its own diagonal entry, then every column by
    the root of its own, and the result is clipped to [[-1, 1]]. *)
Definition corrcoef (T : nat) (x : list (list num)) : correlations :=
  match x with
  | [x0] => let c := cov T x0 x0 in Scalar (ndiv c c)
  | _ =>
      let stddev := fun xi => nsqrt (cov T xi xi) in
      Matrix
        (map (fun xi =>
                map (fun xj =>
                       clip (ndiv (ndiv (cov T xi xj) (stddev xi)) (stddev xj))
                            (nsub n0 n1) n1)
                    x)
             x)
  end.

Definition roi_graph (data mask : array2) : result correlations :=
  ts <- roi_timeseries data mask ;;
  Ok (corrcoef (ncols data) ts).

(** *** translate *)

(** [a / b] with broadcasting on both axes. *)
Definition divide (a b : array2) : result array2 :=
  rs <- broadcast (fun r s => broadcast (fun x y => Ok (ndiv x y)) r s)
                  (rows a) (rows b) ;;
  Ok (mkArray (broadcast_dim (ncols a) (ncols b)) rs).

Definition translate (data : array2) (factors : list num) : result array2 :=
  if Nat.ltb 1 (length factors) && negb (Nat.eqb (nrows data) (length factors)) then
    Err (ShapeMismatch
           "You submitted a set of factors of the wrong size for the input data!")
  else if Nat.eqb (length factors) 1 then
    divide data (mkArray (length factors) [factors])
  else if Nat.eqb (length factors) 0 then
    divide data (mkArray 1 (map (fun r => [mean r]) (rows data)))
  else Ok data.

(** *** scale_timeseries *)

(** [np.min] and [np.max]: the reduction by [np.minimum] and
    [np.maximum], which an empty array refuses. *)
Definition reduce (f : num -> num -> num) (l : list num) : result num :=
  match l with
  | [] => Err (ValueError "zero-size array to reduction operation")
  | x :: t => Ok (fold_left f t x)
  end.

Definition np_min : list num -> result num := reduce minimum.
Definition np_max : list num -> result num := reduce maximum.

Definition scale_timeseries (ts : list num) : result (list num) :=
  lo <- np_min ts ;;
  let ts := map (fun x => nsub x lo) ts in
  hi <- np_max ts ;;
  Ok (map (fun x => ndiv x hi) ts).

(** *** What the statements below talk about *)

(** The comparison a rule stands for. *)
Definition rule_op (rule : string) : num -> num -> bool :=
  if String.eqb rule "=" then neqb
  else if String.eqb rule ">" then gtb
  else nltb.

(** Mask value [m] satisfies threshold entry [t]. *)
Definition meets (op : num -> num -> bool) (t : thr) (m : num) : bool :=
  match t with
  | TNum t => op m t
  | TSeq ts => existsb (op m) ts
  end.

(** The value of voxel [i] in a one-column mask, and its data row. *)
Definition mask_value (mask : array2) (i : nat) : num :=
  hd n0 (nth i (rows mask) []).

Definition voxel (data : array2) (i : nat) : list num :=
  nth i (rows data) [].

(** The time series of voxel [i] sums to zero. *)
Definition zero_sum (data : array2) (i : nat) : bool :=
  neqb (nsum (voxel data i)) n0.

(** Voxel [i] satisfies the rule for some threshold and is not a
    zero-sum voxel. *)
Definition selected (data mask : array2) (rule : string) (ts : list thr)
    (i : nat) : bool :=
  existsb (fun t => meets (rule_op rule) t (mask_value mask i)) ts
  && negb (zero_sum data i).

(** The boolean row [mask[i] <op> t] for a one-column mask. *)
Definition compare_row (op : num -> num -> bool) (t : thr) (m : num) : list bool :=
  match t with
  | TNum t => [op m t]
  | TSeq ts => map (op m) ts
  end.

Definition one_column (mask : array2) : Prop :=
  Forall (fun r => length r = 1) (rows mask).

(** The voxels [maskdata] keeps, in ascending order. *)
Definition kept (data mask : array2) (rule : string) (ts : list thr) : list nat :=
  filter (selected data mask rule ts) (seq 0 (nrows data)).

(** The [threshold] argument is a list. *)
Definition is_list (threshold : pyarg) : bool :=
  match threshold with
  | PyList _ => true
  | _ => false
  end.

(** Column-wise mean over all rows whose mask value equals [v], computed
    directly (the wording of the specification). *)
Definition mean_where_equal (data mask : array2) (v : num) : list num :=
  nanmean_axis0
    (mkArray (ncols data)
       (map fst (filter (fun p => neqb (hd n0 (snd p)) v)
                        (combine (rows data) (rows mask))))).

(** The same over the rows that, in addition, do not sum to zero. *)
Definition mean_where_equal_nonzero (data mask : array2) (v : num) : list num :=
  nanmean_axis0
    (mkArray (ncols data)
       (map fst (filter (fun p => neqb (hd n0 (snd p)) v
                                  && negb (neqb (nsum (fst p)) n0))
                        (combine (rows data) (rows mask))))).

(** The mean time series of the region labelled [roi]. *)
Definition region_mean (data mask : array2) (roi : num) : list num :=
  nanmean_axis0
    (mkArray (ncols data) (map (voxel data) (kept data mask "=" [TNum roi]))).

(** [np.var] of a vector: the mean squared deviation from the mean. *)
Definition variance (x : list num) : num :=
  mean (map (fun d => nmul d d) (demean x)).

(** The correlation of rows [xi] and [xj], as [corrcoef] computes it
    for two rows or more. *)
Definition correlation (T : nat) (xi xj : list num) : num :=
  clip (ndiv (ndiv (cov T xi xj) (nsqrt (cov T xi xi))) (nsqrt (cov T xj xj)))
       (nsub n0 n1) n1.

(** Entry [(i, j)] of a matrix given as a list of rows. *)
Definition entry (G : list (list num)) (i j : nat) : option num :=
  match nth_error G i with
  | Some row => nth_error row j
  | None => None
  end.

(** A data matrix with every row divided by its corresponding factor. *)
Definition divided_per_row (data : array2) (factors : list num) : array2 :=
  mkArray (ncols data)
    (map (fun p => map (fun x => ndiv x (snd p)) (fst p))
         (combine (rows data) factors)).

(** A data matrix with every row divided by a number of its own. *)
Definition rows_divided (data : array2) (by_ : list num -> num) : array2 :=
  mkArray (ncols data) (map (fun r => map (fun x => ndiv x (by_ r)) r) (rows data)).
End Utilities.

Arguments array2 num : clear implicits.
Arguments thr num : clear implicits.
Arguments pyarg num : clear implicits.
Arguments label num : clear implicits.
Arguments correlations num : clear implicits.


(** ** The helpers that read images and directories

    [nib.load], [os.walk] and [os.path.isdir] reach outside the program;
    what they hand back is an argument here.  These helpers raise plain
    [Exception]s of their own and pass on NumPy's and Python's, so an
    exception is kept as its class and its message. *)

Inductive exception : Type :=
| Raised (class msg : string).

Inductive outcome (A : Type) : Type :=
| Returned (a : A)
| Failed (e : exception).

Arguments Returned {A} a.
Arguments Failed {A} e.

Definition and_then {A B : Type} (r : outcome A) (k : A -> outcome B) : outcome B :=
  match r with
  | Returned a => k a
  | Failed e => Failed e
  end.

Section Volumes.
Context {num : Type} {N : Numeric num}.

(** An array of any rank: its shape and its values in C order. *)
Record ndarray : Type := mkNd { shape : list nat; flat : list num }.

Definition count (dims : list nat) : nat := fold_right Nat.mul 1 dims.

(** An array holds as many values as its shape says. *)
Definition nd_ok (a : ndarray) : Prop := length (flat a) = count (shape a).

(** [n] consecutive blocks of [t] values. *)
Fixpoint chunks (n t : nat) (l : list num) : list (list num) :=
  match n with
  | O => []
  | S n' => firstn t l :: chunks n' t (skipn t l)
  end.

(** [a.reshape(dims)]. *)
Definition reshape (a : ndarray) (dims : list nat) : outcome ndarray :=
  if Nat.eqb (count dims) (length (flat a)) then Returned (mkNd dims (flat a))
  else Failed (Raised "ValueError" "cannot reshape array").

(** A rank-2 array as the matrix the functions above work on. *)
Definition to_array2 (a : ndarray) : array2 num :=
  match shape a with
  | [n; t] => mkArray t (chunks n t (flat a))
  | _ => mkArray 0 []
  end.

(** [a[idx, :]]: the blocks of the first axis at the given positions. *)
Definition take_first_axis (a : ndarray) (idx : list nat) : outcome ndarray :=
  match shape a with
  | d0 :: d1 :: rest =>
      let blocks := chunks d0 (count (d1 :: rest)) (flat a) in
      if forallb (fun i => Nat.ltb i d0) idx then
        Returned (mkNd (length idx :: d1 :: rest)
                       (concat (map (fun i => nth i blocks []) idx)))
      else Failed (Raised "IndexError" "index is out of bounds")
  | _ => Failed (Raised "IndexError" "too many indices for array")
  end.

(** What [nib.load] hands back: the data, and an affine and a header
    that are only passed on. *)
Record image (A H : Type) : Type :=
  mkImage { dataobj : ndarray; affine : A; header : H }.

(** *** loadnii *)

Definition loadnii {A H : Type} (nifti : image A H)
  : outcome (array2 num * A * H * list nat) :=
  let dims := shape (dataobj nifti) in
  if Nat.ltb (length dims) 3 then
    Failed (Raised "Exception" "Your data has less than 3 dimensions!")
  else if Nat.ltb 4 (length dims) then
    Failed (Raised "Exception" "Your data is at least a penteract (over 4 dimensions!)")
  else
    let dims := if Nat.eqb (length dims) 3 then dims ++ [1] else dims in
    and_then
      (reshape (dataobj nifti)
               [nth 0 dims 0 * nth 1 dims 0 * nth 2 dims 0; nth 3 dims 0])
      (fun a => Returned (to_array2 a, affine nifti, header nifti, dims)).

(** *** load_masked_data *)

Definition load_masked_data (func mask : ndarray) : outcome ndarray :=
  let s := shape mask in
  if Nat.ltb (length s) 3 then
    Failed (Raised "IndexError" "tuple index out of range")
  else
    and_then (reshape mask [nth 0 s 0 * nth 1 s 0 * nth 2 s 0]) (fun mask =>
    let idx := where1 (map (fun m => gtb m n0) (flat mask)) in
    let d := shape func in
    and_then
      (if Nat.eqb (length d) 4 then
         reshape func [nth 0 d 0 * nth 1 d 0 * nth 2 d 0; nth 3 d 0]
       else if Nat.eqb (length d) 3 then
         reshape func [nth 0 d 0 * nth 1 d 0 * nth 2 d 0; 1]
       else Returned func)
      (fun func => take_first_axis func idx)).

(** *** get_mask_dims *)

Definition get_mask_dims {A H : Type} (nifti : image A H)
  : outcome (list nat * A * H * list nat) :=
  let dims := shape (dataobj nifti) in
  if negb (Nat.eqb (length dims) 3) then
    Failed (Raised "Exception" "ERROR: Mask should be 3D")
  else
    and_then
      (reshape (dataobj nifti) [nth 0 dims 0 * nth 1 dims 0 * nth 2 dims 0; 1])
      (fun a =>
         let idx := where0 (map (map (fun m => gtb m n0)) (rows (to_array2 a))) in
         Returned (idx, affine nifti, header nifti, dims)).
End Volumes.

Arguments ndarray num : clear implicits.
Arguments image num A H : clear implicits.

(** *** get_subj *)

(** [walk] is what [os.walk(dir)] yields first, if anything: the names
    of the sub-directories of [dir]. *)
Definition get_subj (walk : option (list string)) (isdir : string -> bool)
  : outcome (list string) :=
  match walk with
  | None => Failed (Raised "StopIteration" "")
  | Some dirnames =>
      let subjects := filter isdir dirnames in
      let subjects := sort String.ltb subjects in
      Returned (filter (fun x => negb (String.prefix "." x)) subjects)
  end.

(** *** mangle_string *)

Definition replace_char (old new : Ascii.ascii) (s : list Ascii.ascii) : list Ascii.ascii :=
  map (fun c => if Ascii.eqb c old then new else c) s.

Fixpoint lstrip (chars : list Ascii.ascii) (s : list Ascii.ascii) : list Ascii.ascii :=
  match s with
  | [] => []
  | c :: s' => if existsb (Ascii.eqb c) chars then lstrip chars s' else s
  end.

(** [s.strip(chars)]: leading and trailing characters of [chars] go. *)
Definition strip (chars : list Ascii.ascii) (s : list Ascii.ascii) : list Ascii.ascii :=
  rev (lstrip chars (rev (lstrip chars s))).

Definition junk : list Ascii.ascii :=
  list_ascii_of_string ",./;'[]\|_=+<>?:{}!@#$%^&*()`~".

Definition double_quote : Ascii.ascii := "034"%char.

Definition mangle_string (text : string) : string :=
  let s := replace_char " "%char "-"%char (list_ascii_of_string text) in
  let s := strip junk s in
  let s := strip [double_quote] s in
  string_of_list_ascii s.

(** ** Reductions over real numbers, to state what [exact] computes *)

Definition Rsum (l : list R) : R := fold_left Rplus l 0%R.

Definition Rlist_min (l : list R) : R :=
  match l with
  | [] => 0%R
  | x :: t => fold_left Rmin t x
  end.

Definition Rlist_max (l : list R) : R :=
  match l with
  | [] => 0%R
  | x :: t => fold_left Rmax t x
  end.

(** ** The scenario of the specification: four voxels, three timepoints *)

Definition scenario_data : array2 float :=
  mkArray 3 [[1; 2; 3]; [0; 0; 0]; [4; 5; 6]; [7; 8; 9]]%float.

Definition scenario_mask : array2 float :=
  mkArray 1 [[1]; [1]; [2]; [2]]%float.

(** The same scenario in exact arithmetic. *)
Definition exact_data : array2 xreal :=
  mkArray 3 [[Fin 1; Fin 2; Fin 3]; [Fin 0; Fin 0; Fin 0];
             [Fin 4; Fin 5; Fin 6]; [Fin 7; Fin 8; Fin 9]].

Definition exact_mask : array2 xreal :=
  mkArray 1 [[Fin 1]; [Fin 1]; [Fin 2]; [Fin 2]].


(** Two regions of one voxel each; the first series rises from 0 to
    [2^600], so that its squared deviations leave the binary64 range. *)
Definition steep_data : array2 float := mkArray 2 [[0; 0x1p600]; [1; 2]]%float.

Definition steep_mask : array2 float := mkArray 1 [[1]; [2]]%float.

(** Two regions of one voxel each, with small whole numbers: every sum
    and product on the way to the covariances is exact, and only the
    roots and quotients of [corrcoef] round. *)
Definition uneven_data : array2 float := mkArray 3 [[8; 5; 2]; [8; 3; 4]]%float.

Definition uneven_mask : array2 float := mkArray 1 [[1]; [2]]%float.

(** Two regions of one voxel each, the first voxel constant zero. *)
Definition blank_data : array2 xreal := mkArray 2 [[Fin 0; Fin 0]; [Fin 1; Fin 2]].

Definition blank_mask : array2 xreal := mkArray 1 [[Fin 1]; [Fin 2]].

(** The scenario as image files: a functional image of 2 x 1 x 2 voxels
    and three timepoints, and a mask on the same grid. *)
Definition scenario_func_image : image float unit unit :=
  mkImage (mkNd [2; 1; 2; 3] [1; 2; 3; 0; 0; 0; 4; 5; 6; 7; 8; 9]%float) tt tt.

Definition scenario_mask_image : image float unit unit :=
  mkImage (mkNd [2; 1; 2] [1; 1; 2; 2]%float) tt tt.

(** Two voxels, two timepoints, for [translate]. *)
Definition two_by_two : array2 float := mkArray 2 [[2; 4]; [6; 8]]%float.

Unset Implicit Arguments.

(** * Facts about the NumPy helpers *)

Lemma bind_Ok {A B : Type} (r : result A) (k : A -> result B) (b : B) :
  bind r k = Ok b -> exists a, r = Ok a /\ k a = Ok b.
Proof.
  destruct r as [a|e]; simpl; intros H; [exists a; auto | discriminate].
Qed.

Lemma mapM_Ok_total {A B : Type} (f : A -> B) (l : list A) :
  mapM (fun a => Ok (f a)) l = Ok (map f l).
Proof.
  induction l as [|a l IH]; simpl; [reflexivity|].
  rewrite IH. reflexivity.
Qed.

Lemma mapM_ext_in {A B : Type} (f g : A -> result B) (l : list A) :
  (forall a, In a l -> f a = g a) -> mapM f l = mapM g l.
Proof.
  induction l as [|a l IH]; simpl; intros H; [reflexivity|].
  rewrite (H a) by auto. rewrite IH by auto. reflexivity.
Qed.

Lemma mapM_Forall2 {A B : Type} (f : A -> result B) (l : list A) (bs : list B) :
  mapM f l = Ok bs -> Forall2 (fun a b => f a = Ok b) l bs.
Proof.
  revert bs. induction l as [|a l IH]; simpl; intros bs H.
  - injection H as <-. constructor.
  - apply bind_Ok in H as (b & Hb & H).
    apply bind_Ok in H as (bs' & Hbs & H).
    injection H as <-. constructor; auto.
Qed.

Section SortFacts.
Variable A : Type.
Variable lt : A -> A -> bool.
Variable ne : A -> A -> bool.

Local Abbreviation precedes := (before lt).

Lemma insert_In (x y : A) (l : list A) :
  In y (insert lt x l) <-> y = x \/ In y l.
Proof.
  induction l as [|h t IH]; simpl.
  - intuition.
  - destruct (lt x h); simpl; rewrite ?IH; intuition.
Qed.

Lemma sort_In (y : A) (l : list A) : In y (sort lt l) <-> In y l.
Proof.
  induction l as [|x t IH]; simpl; [tauto|].
  rewrite insert_In, IH. intuition.
Qed.

Lemma keep_changes_incl (p y : A) (l : list A) :
  In y (keep_changes ne p l) -> In y l.
Proof.
  revert p. induction l as [|x t IH]; simpl; intros p H; [assumption|].
  destruct (ne x p); simpl in H; [destruct H|]; eauto.
Qed.

Lemma unique_incl (y : A) (l : list A) : In y (unique lt ne l) -> In y l.
Proof.
  unfold unique. intros H. apply sort_In.
  destruct (sort lt l) as [|x t]; [assumption|].
  destruct H as [->|H]; [left; reflexivity|right].
  eapply keep_changes_incl; eassumption.
Qed.

Hypothesis lt_asym : forall a b, lt a b = true -> lt b a = false.
Hypothesis before_trans : forall a b c, precedes a b -> precedes b c -> precedes a c.

Lemma insert_sorted (x : A) (l : list A) :
  StronglySorted precedes l -> StronglySorted precedes (insert lt x l).
Proof.
  induction 1 as [|h t Hs IH Hh]; simpl.
  - repeat constructor.
  - destruct (lt x h) eqn:E.
    + constructor; [constructor; assumption|].
      assert (Hxh : precedes x h) by (apply lt_asym; exact E).
      constructor; [exact Hxh|].
      eapply Forall_impl; [|exact Hh]. intros a Ha.
      eapply before_trans; eassumption.
    + constructor; [exact IH|].
      apply Forall_forall. intros a Ha. apply insert_In in Ha as [->|Ha].
      * exact E.
      * rewrite Forall_forall in Hh. auto.
Qed.

Lemma sort_sorted (l : list A) : StronglySorted precedes (sort lt l).
Proof.
  induction l as [|x t IH]; simpl; [constructor|].
  apply insert_sorted. exact IH.
Qed.

(** The order the kept elements end up in. *)
Variable strict : A -> A -> Prop.
Hypothesis strict_step : forall p y, precedes p y -> ne y p = true -> strict p y.
Hypothesis strict_left : forall a p y, precedes a p -> strict p y -> strict a y.
Hypothesis before_refl : forall a, precedes a a.

Lemma keep_changes_sorted (l : list A) : forall p,
  StronglySorted precedes (p :: l) ->
  Forall (fun y => forall a, precedes a p -> strict a y) (keep_changes ne p l)
  /\ StronglySorted strict (keep_changes ne p l).
Proof.
  induction l as [|y t IH]; intros p Hs; simpl.
  - split; constructor.
  - apply StronglySorted_inv in Hs as [Hyt Hp].
    apply Forall_cons_iff in Hp as [Hpy Hpt].
    destruct (IH y Hyt) as [IHa IHs].
    assert (Hrest : Forall (fun z => forall a, precedes a p -> strict a z)
                           (keep_changes ne y t)).
    { eapply Forall_impl; [|exact IHa]. intros z Hz a Ha.
      apply Hz. eapply before_trans; eassumption. }
    destruct (ne y p) eqn:E.
    + split.
      * constructor; [|exact Hrest].
        intros a Ha. eapply strict_left; [exact Ha|]. apply strict_step; assumption.
      * constructor; [exact IHs|].
        eapply Forall_impl; [|exact IHa]. intros z Hz. apply Hz, before_refl.
    + split; assumption.
Qed.

Lemma unique_sorted (l : list A) : StronglySorted strict (unique lt ne l).
Proof.
  unfold unique. pose proof (sort_sorted l) as Hs.
  destruct (sort lt l) as [|x t]; [constructor|].
  destruct (keep_changes_sorted t x Hs) as [Ha Hk].
  constructor; [exact Hk|].
  eapply Forall_impl; [|exact Ha]. intros z Hz. apply Hz, before_refl.
Qed.

(** Nothing is lost up to [same]: every input has a representative. *)
Variable same : A -> A -> Prop.
Hypothesis same_drop : forall x p, ne x p = false -> same p x.
Hypothesis same_trans : forall a b c, same a b -> same b c -> same a c.

Lemma keep_changes_complete (l : list A) : forall p x,
  In x l -> same x x ->
  (exists r, In r (keep_changes ne p l) /\ same r x) \/ same p x.
Proof.
  induction l as [|y t IH]; intros p x Hin Hx; [destruct Hin|].
  simpl. destruct (ne y p) eqn:E.
  - left. destruct Hin as [->|Hin].
    + exists x. split; [left; reflexivity|exact Hx].
    + destruct (IH y x Hin Hx) as [(r & Hr & Hrx)|Hyx].
      * exists r. split; [right; exact Hr|exact Hrx].
      * exists y. split; [left; reflexivity|exact Hyx].
  - apply same_drop in E. destruct Hin as [->|Hin].
    + right. exact E.
    + destruct (IH y x Hin Hx) as [H|Hyx]; [left; exact H|right].
      eapply same_trans; eassumption.
Qed.

Lemma unique_complete (l : list A) (x : A) :
  In x l -> same x x -> exists r, In r (unique lt ne l) /\ same r x.
Proof.
  intros Hin Hx. apply sort_In in Hin. unfold unique.
  destruct (sort lt l) as [|y t]; [destruct Hin|].
  destruct Hin as [->|Hin].
  - exists x. split; [left; reflexivity|exact Hx].
  - destruct (keep_changes_complete t y x Hin Hx) as [(r & Hr & Hrx)|Hyx].
    + exists r. split; [right; exact Hr|exact Hrx].
    + exists y. split; [left; reflexivity|exact Hyx].
Qed.
End SortFacts.

(** ** Index arrays *)

Lemma unique_idx_sorted (l : list nat) : StronglySorted lt (unique_idx l).
Proof.
  unfold unique_idx. apply unique_sorted; unfold before.
  - intros a b H. apply Nat.ltb_lt in H. apply Nat.ltb_ge. lia.
  - intros a b c H1 H2. apply Nat.ltb_ge in H1, H2. apply Nat.ltb_ge. lia.
  - intros p y H1 H2. apply Nat.ltb_ge in H1.
    apply negb_true_iff, Nat.eqb_neq in H2. lia.
  - intros a p y H1 H2. apply Nat.ltb_ge in H1. lia.
  - intros a. apply Nat.ltb_irrefl.
Qed.

Lemma unique_idx_In (l : list nat) (i : nat) : In i (unique_idx l) <-> In i l.
Proof.
  split; [apply unique_incl|].
  intros H. unfold unique_idx.
  destruct (unique_complete nat Nat.ltb (fun a b => negb (Nat.eqb a b)) eq) with (l := l) (x := i)
    as (r & Hr & ->); auto.
  - intros x p E. apply negb_false_iff, Nat.eqb_eq in E. auto.
  - intros; congruence.
Qed.

Lemma sorted_lt_notin (x : nat) (l : list nat) :
  Forall (lt x) l -> ~ In x l.
Proof.
  rewrite Forall_forall. intros H Hin. specialize (H x Hin). lia.
Qed.

(** Two strictly increasing index lists with the same members are the
    same list. *)
Lemma sorted_ext (l1 : list nat) : forall l2,
  StronglySorted lt l1 -> StronglySorted lt l2 ->
  (forall i, In i l1 <-> In i l2) -> l1 = l2.
Proof.
  induction l1 as [|a l1 IH]; intros l2 H1 H2 Hiff.
  - destruct l2 as [|b l2]; [reflexivity|].
    exfalso. apply (Hiff b). left; reflexivity.
  - destruct l2 as [|b l2].
    + exfalso. apply (Hiff a). left; reflexivity.
    + apply StronglySorted_inv in H1 as [H1 Ha], H2 as [H2 Hb].
      rewrite Forall_forall in Ha, Hb.
      assert (a = b) as <-.
      { destruct (proj1 (Hiff a) (or_introl eq_refl)) as [E|E]; [auto|].
        destruct (proj2 (Hiff b) (or_introl eq_refl)) as [E'|E']; [auto|].
        specialize (Ha _ E'). specialize (Hb _ E). lia. }
      f_equal. apply IH; auto.
      intros i. split; intros Hi.
      * destruct (proj1 (Hiff i) (or_intror Hi)) as [<-|E]; [|exact E].
        specialize (Ha _ Hi). lia.
      * destruct (proj2 (Hiff i) (or_intror Hi)) as [<-|E]; [|exact E].
        specialize (Hb _ Hi). lia.
Qed.

Lemma filter_sorted {A : Type} (R : A -> A -> Prop) (f : A -> bool) (l : list A) :
  StronglySorted R l -> StronglySorted R (filter f l).
Proof.
  induction 1 as [|a l Hs IH Ha]; simpl; [constructor|].
  destruct (f a); [|exact IH].
  constructor; [exact IH|].
  rewrite Forall_forall in *. intros x Hx. apply filter_In in Hx as [Hx _]. auto.
Qed.

Lemma seq_sorted (n k : nat) : StronglySorted lt (seq k n).
Proof.
  revert k. induction n as [|n IH]; intros k; simpl; constructor; [apply IH|].
  apply Forall_forall. intros x Hx. apply in_seq in Hx. lia.
Qed.

Lemma setdiff1d_sorted (a b : list nat) : StronglySorted lt (setdiff1d a b).
Proof. apply filter_sorted, unique_idx_sorted. Qed.

Lemma setdiff1d_In (a b : list nat) (i : nat) :
  In i (setdiff1d a b) <-> In i a /\ ~ In i b.
Proof.
  unfold setdiff1d. rewrite filter_In, unique_idx_In, negb_true_iff.
  split; intros [Ha Hb]; split; auto.
  - intros Hin. rewrite <- unique_idx_In in Hin.
    assert (existsb (Nat.eqb i) (unique_idx b) = true); [|congruence].
    apply existsb_exists. exists i. split; [exact Hin|apply Nat.eqb_refl].
  - destruct (existsb (Nat.eqb i) (unique_idx b)) eqn:E; [|reflexivity].
    apply existsb_exists in E as (j & Hj & Hij). apply Nat.eqb_eq in Hij. subst j.
    rewrite unique_idx_In in Hj. contradiction.
Qed.

Lemma where0_from_In (b : list (list bool)) : forall k i,
  In i (where0_from k b) <->
  k <= i /\ exists r, nth_error b (i - k) = Some r /\ existsb (fun c => c) r = true.
Proof.
  induction b as [|r b IH]; intros k i; simpl.
  - split; [tauto|]. intros (_ & r & H & _). destruct (i - k); discriminate.
  - rewrite in_app_iff, in_map_iff, IH. split.
    + intros [(c & <- & Hc)|(Hk & r' & Hn & Hr')].
      * split; [lia|]. exists r. rewrite Nat.sub_diag. split; [reflexivity|].
        apply filter_In in Hc as [Hc Hc']. apply existsb_exists. eauto.
      * split; [lia|]. exists r'. replace (i - k) with (S (i - S k)) by lia. auto.
    + intros (Hk & r' & Hn & Hr'). destruct (i - k) as [|d] eqn:E.
      * left. injection Hn as <-. apply existsb_exists in Hr' as (c & Hc & Hc').
        exists c. split; [lia|]. apply filter_In. auto.
      * right. split; [lia|]. exists r'. replace (i - S k) with d by lia. auto.
Qed.

Lemma where1_from_In (b : list bool) : forall k i,
  In i (where1_from k b) <-> k <= i /\ nth_error b (i - k) = Some true.
Proof.
  induction b as [|c b IH]; intros k i; simpl.
  - split; [tauto|]. intros (_ & H). destruct (i - k); discriminate.
  - rewrite in_app_iff, IH. split.
    + intros [H|(Hk & Hn)].
      * destruct c; [|destruct H]. destruct H as [<-|[]].
        rewrite Nat.sub_diag. split; [lia|reflexivity].
      * split; [lia|]. replace (i - k) with (S (i - S k)) by lia. exact Hn.
    + intros (Hk & Hn). destruct (i - k) as [|d] eqn:E.
      * left. injection Hn as ->. left. lia.
      * right. split; [lia|]. replace (i - S k) with d by lia. exact Hn.
Qed.

(** * maskdata *)

Section MaskData.
Context {num : Type} {N : Numeric num}.

Lemma valid_rule_cases (rule : string) :
  valid_rule rule = true -> rule = "="%string \/ rule = ">"%string \/ rule = "<"%string.
Proof.
  unfold valid_rule, existsb. rewrite orb_false_r, !orb_true_iff, !String.eqb_eq. tauto.
Qed.

Lemma add_threshold_eq (rule : string) (mask : array2 num) (idx : list nat) (t : thr num) :
  valid_rule rule = true ->
  add_threshold rule mask idx t =
  (b <- compare (rule_op rule) mask t ;; Ok (unique_idx (idx ++ where0 b))).
Proof.
  intros H. apply valid_rule_cases in H as [-> | [-> | ->]]; reflexivity.
Qed.

Lemma compare_row_meets (op : num -> num -> bool) (t : thr num) (m : num) :
  existsb (fun c => c) (compare_row op t m) = meets op t m.
Proof.
  destruct t as [t|ts]; simpl; [apply orb_false_r|].
  induction ts as [|a ts IH]; simpl; [reflexivity|]. rewrite IH. reflexivity.
Qed.

Lemma broadcast_one (op : num -> num -> bool) (m : num) (ts : list num) :
  broadcast (fun m t => Ok (op m t)) [m] ts = Ok (map (op m) ts).
Proof.
  unfold broadcast. destruct (Nat.eqb (length [m]) (length ts)) eqn:E.
  - apply Nat.eqb_eq in E. destruct ts as [|t [|t' ts]]; try discriminate.
    reflexivity.
  - apply mapM_Ok_total.
Qed.

Lemma wf_one_column (mask : array2 num) :
  wf mask -> ncols mask = 1 -> one_column mask.
Proof. unfold wf, one_column. intros H E. rewrite E in H. exact H. Qed.

Lemma compare_one_column (op : num -> num -> bool) (mask : array2 num) (t : thr num) :
  one_column mask ->
  compare op mask t = Ok (map (fun r => compare_row op t (hd n0 r)) (rows mask)).
Proof.
  unfold one_column, compare. intros H. destruct t as [t|ts].
  - f_equal. apply map_ext_in. intros r Hr. rewrite Forall_forall in H.
    specialize (H r Hr). destruct r as [|m [|]]; try discriminate. reflexivity.
  - rewrite <- mapM_Ok_total. apply mapM_ext_in. intros r Hr.
    rewrite Forall_forall in H. specialize (H r Hr).
    destruct r as [|m [|]]; try discriminate. apply broadcast_one.
Qed.

Lemma where0_compare_In (op : num -> num -> bool) (mask : array2 num) (t : thr num) (i : nat) :
  In i (where0 (map (fun r => compare_row op t (hd n0 r)) (rows mask))) <->
  i < nrows mask /\ meets op t (mask_value mask i) = true.
Proof.
  unfold where0, nrows, mask_value. rewrite where0_from_In, Nat.sub_0_r. split.
  - intros (_ & r & Hn & Hr). rewrite nth_error_map in Hn.
    destruct (nth_error (rows mask) i) as [row|] eqn:E; [|discriminate].
    injection Hn as <-. split.
    + apply nth_error_Some. congruence.
    + rewrite (nth_error_nth _ _ _ E). rewrite <- compare_row_meets. exact Hr.
  - intros (Hi & Hm). split; [lia|].
    destruct (nth_error (rows mask) i) as [row|] eqn:E.
    + exists (compare_row op t (hd n0 row)). rewrite nth_error_map, E. split; [reflexivity|].
      rewrite (nth_error_nth _ _ _ E) in Hm. rewrite compare_row_meets. exact Hm.
    + apply nth_error_None in E. lia.
Qed.

Lemma thresholds_loop_spec (rule : string) (mask : array2 num) (ts : list (thr num)) :
  valid_rule rule = true -> one_column mask ->
  forall idx, exists idx',
    thresholds_loop rule mask idx ts = Ok idx' /\
    forall i, In i idx' <->
      In i idx \/
      (i < nrows mask /\
       existsb (fun t => meets (rule_op rule) t (mask_value mask i)) ts = true).
Proof.
  intros Hr Hm. induction ts as [|t ts IH]; intros idx; simpl.
  - exists idx. split; [reflexivity|]. intros i. split; [auto|].
    intros [H|[_ H]]; [exact H|discriminate].
  - rewrite add_threshold_eq by exact Hr.
    rewrite compare_one_column by exact Hm. simpl.
    destruct (IH (unique_idx (idx ++ where0
                (map (fun r => compare_row (rule_op rule) t (hd n0 r)) (rows mask)))))
      as (idx' & Hloop & Hin).
    exists idx'. split; [exact Hloop|]. intros i.
    rewrite Hin, unique_idx_In, in_app_iff, where0_compare_In, orb_true_iff. tauto.
Qed.

Lemma zero_rows_In (data : array2 num) (i : nat) :
  In i (where1 (map (fun s => neqb s n0) (sum_axis1 data))) <->
  i < nrows data /\ zero_sum data i = true.
Proof.
  unfold where1, sum_axis1, zero_sum, voxel, nrows.
  rewrite where1_from_In, Nat.sub_0_r, map_map, nth_error_map.
  destruct (nth_error (rows data) i) as [r|] eqn:E; simpl.
  - rewrite (nth_error_nth _ _ _ E).
    assert (i < length (rows data)) by (apply nth_error_Some; congruence).
    split; [intros [_ H']; injection H' as ->; auto|intros [_ ->]; split; [lia|reflexivity]].
  - apply nth_error_None in E. split; [intros [_ H]; discriminate|lia].
Qed.

Lemma take_rows_in_range (data : array2 num) (idx : list nat) :
  Forall (fun i => i < nrows data) idx ->
  take_rows data idx = Ok (mkArray (ncols data) (map (voxel data) idx)).
Proof.
  intros H. unfold take_rows.
  replace (mapM _ idx) with (Ok (A := list (list num)) (map (voxel data) idx)); [reflexivity|].
  rewrite <- mapM_Ok_total. apply mapM_ext_in. intros i Hi.
  rewrite Forall_forall in H. specialize (H i Hi). unfold voxel, nrows in *.
  destruct (nth_error (rows data) i) as [r|] eqn:E.
  - rewrite (nth_error_nth _ _ _ E). reflexivity.
  - apply nth_error_None in E. lia.
Qed.

(** Full functional description of [maskdata] on well-shaped input. *)
Lemma maskdata_spec (data mask : array2 num) (rule : string) (ts : list (thr num)) :
  nrows data = nrows mask -> wf mask -> ncols mask = 1 -> valid_rule rule = true ->
  maskdata data mask rule (PyList ts) =
  Ok (mkArray (ncols data) (map (voxel data) (kept data mask rule ts)),
      kept data mask rule ts).
Proof.
  intros Hn Hwf Hc Hr. unfold maskdata, check_dims, check_mask.
  rewrite Hn, Nat.eqb_refl, Hc, Hr. simpl.
  destruct (thresholds_loop_spec rule mask ts Hr (wf_one_column mask Hwf Hc) [])
    as (idx & -> & Hin). simpl.
  set (zs := where1 _).
  assert (E : setdiff1d idx zs = kept data mask rule ts).
  { apply sorted_ext.
    - apply setdiff1d_sorted.
    - apply filter_sorted, seq_sorted.
    - intros i. unfold kept, selected, zs.
      rewrite setdiff1d_In, Hin, zero_rows_In, filter_In, in_seq, andb_true_iff,
        negb_true_iff, Hn. simpl.
      destruct (zero_sum data i); intuition (try discriminate; try lia). }
  rewrite E, take_rows_in_range; [reflexivity|].
  apply Forall_forall. intros i Hi. apply filter_In in Hi as [Hi _].
  apply in_seq in Hi. lia.
Qed.
End MaskData.

Lemma sorted_lt_NoDup (l : list nat) : StronglySorted lt l -> NoDup l.
Proof.
  induction 1 as [|a l Hs IH Ha]; constructor; [|exact IH].
  apply sorted_lt_notin. exact Ha.
Qed.

Lemma kept_sorted {num : Type} {N : Numeric num}
    (data mask : array2 num) (rule : string) (ts : list (thr num)) :
  StronglySorted lt (kept data mask rule ts).
Proof. apply filter_sorted, seq_sorted. Qed.

Lemma kept_In {num : Type} {N : Numeric num}
    (data mask : array2 num) (rule : string) (ts : list (thr num)) (i : nat) :
  In i (kept data mask rule ts) <->
  i < nrows data /\ selected data mask rule ts i = true.
Proof. unfold kept. rewrite filter_In, in_seq. simpl. intuition lia. Qed.

Lemma voxel_nth_error {num : Type} {N : Numeric num} (data : array2 num) (idx : list nat) :
  Forall (fun i => i < nrows data) idx ->
  Forall2 (fun i r => nth_error (rows data) i = Some r) idx (map (voxel data) idx).
Proof.
  induction 1 as [|i idx Hi _ IH]; simpl; constructor; [|exact IH].
  unfold voxel. apply nth_error_nth'. exact Hi.
Qed.

(** C1.  On well-shaped input (as many mask rows as data rows, one mask
    value per voxel, a valid rule, thresholds in a list) [maskdata]
    returns; its index list is strictly increasing, hence free of
    repeats; no voxel whose time series sums to zero is in it, whatever
    the rule and the thresholds; and the returned rows are the original
    rows at those indices, in that order. *)
Theorem maskdata_indices_increasing_nonzero :
  forall (num : Type) (N : Numeric num) (data mask : array2 num)
         (rule : string) (ts : list (thr num)),
    nrows data = nrows mask -> wf mask -> ncols mask = 1 ->
    valid_rule rule = true ->
    exists out idx,
      maskdata data mask rule (PyList ts) = Ok (out, idx)
      /\ StronglySorted lt idx
      /\ NoDup idx
      /\ (forall i, i < nrows data -> zero_sum data i = true -> ~ In i idx)
      /\ ncols out = ncols data
      /\ Forall2 (fun i r => nth_error (rows data) i = Some r) idx (rows out).
Proof.
  intros num N data mask rule ts Hn Hwf Hc Hr.
  exists (mkArray (ncols data) (map (voxel data) (kept data mask rule ts))),
         (kept data mask rule ts).
  split; [apply maskdata_spec; assumption|].
  split; [apply kept_sorted|].
  split; [apply sorted_lt_NoDup, kept_sorted|].
  split.
  - intros i _ Hz Hin. apply kept_In in Hin as [_ Hs].
    unfold selected in Hs. rewrite Hz in Hs. simpl in Hs.
    rewrite andb_false_r in Hs. discriminate.
  - split; [reflexivity|]. simpl. apply voxel_nth_error.
    apply Forall_forall. intros i Hi. apply kept_In in Hi. tauto.
Qed.

Lemma maskdata_indices_increasing_nonzero_witness :
  exists out idx,
    maskdata scenario_data scenario_mask ">" (PyList [TNum 0%float]) = Ok (out, idx)
    /\ StronglySorted lt idx
    /\ NoDup idx
    /\ (forall i, i < nrows scenario_data -> zero_sum scenario_data i = true -> ~ In i idx)
    /\ ncols out = ncols scenario_data
    /\ Forall2 (fun i r => nth_error (rows scenario_data) i = Some r) idx (rows out).
Proof.
  apply (maskdata_indices_increasing_nonzero float float64 scenario_data scenario_mask
           ">" [TNum 0%float]).
  - reflexivity.
  - repeat constructor.
  - reflexivity.
  - reflexivity.
Defined.

(** C5.  On well-shaped input [maskdata] fails with InvalidArgument
    exactly when the rule is not one of "=", ">", "<" or the thresholds
    are not a list; such a call yields the error and no output, and every
    other call returns. *)
Theorem maskdata_invalid_argument_iff :
  forall (num : Type) (N : Numeric num) (data mask : array2 num)
         (rule : string) (threshold : pyarg num),
    nrows data = nrows mask -> wf mask -> ncols mask = 1 ->
    ((exists msg, maskdata data mask rule threshold = Err (InvalidArgument msg))
     <-> (valid_rule rule = false \/ is_list threshold = false))
    /\ (valid_rule rule = true -> is_list threshold = true ->
        exists out, maskdata data mask rule threshold = Ok out).
Proof.
  intros num N data mask rule threshold Hn Hwf Hc.
  destruct (valid_rule rule) eqn:Hr.
  - destruct threshold as [ts|ts|t]; simpl.
    + rewrite (maskdata_spec data mask rule ts Hn Hwf Hc Hr). split.
      * split; [intros [msg H]; discriminate|intros [H|H]; discriminate].
      * intros _ _. eexists. reflexivity.
    + unfold maskdata, check_dims, check_mask.
      rewrite Hn, Nat.eqb_refl, Hc, Hr. simpl. split.
      * split; [auto|]. intros _. eexists. reflexivity.
      * intros _ H. discriminate.
    + unfold maskdata, check_dims, check_mask.
      rewrite Hn, Nat.eqb_refl, Hc, Hr. simpl. split.
      * split; [auto|]. intros _. eexists. reflexivity.
      * intros _ H. discriminate.
  - unfold maskdata, check_dims, check_mask.
    rewrite Hn, Nat.eqb_refl, Hc, Hr. simpl. split.
    + split; [auto|]. intros _. eexists. reflexivity.
    + intros H. discriminate.
Qed.

Lemma maskdata_invalid_argument_iff_witness :
  ((exists msg, maskdata scenario_data scenario_mask ">" (PyNum 0%float)
                = Err (InvalidArgument msg))
   <-> (valid_rule ">" = false \/ is_list (PyNum 0%float) = false))
  /\ (valid_rule ">" = true -> is_list (PyNum 0%float) = true ->
      exists out, maskdata scenario_data scenario_mask ">" (PyNum 0%float) = Ok out).
Proof.
  apply (maskdata_invalid_argument_iff float float64 scenario_data scenario_mask
           ">" (PyNum 0%float)).
  - reflexivity.
  - repeat constructor.
  - reflexivity.
Defined.

(** * get_mean_roi *)

Section MeanRoi.
Context {num : Type} {N : Numeric num}.

Lemma map_const_repeat {A : Type} (x : A) (n : nat) : forall k,
  map (fun _ => x) (seq k n) = repeat x n.
Proof.
  induction n as [|n IH]; intros k; simpl; [reflexivity|].
  rewrite IH. reflexivity.
Qed.

Lemma nanmean_axis0_empty (T : nat) :
  nanmean_axis0 (mkArray T ([] : list (list num))) = repeat nan T.
Proof.
  unfold nanmean_axis0. simpl. apply (map_const_repeat nan T 0).
Qed.

Lemma get_mean_roi_spec (data mask : array2 num) (val : label num) :
  nrows data = nrows mask -> wf mask -> ncols mask = 1 ->
  get_mean_roi data mask val =
  Ok (nanmean_axis0
        (mkArray (ncols data)
           (map (voxel data) (kept data mask "=" [label_threshold val])))).
Proof.
  intros Hn Hwf Hc. unfold get_mean_roi.
  rewrite (maskdata_spec data mask "=" _ Hn Hwf Hc eq_refl). reflexivity.
Qed.

Lemma filter_map_comm {A B : Type} (f : B -> bool) (g : A -> B) (l : list A) :
  filter f (map g l) = map g (filter (fun x => f (g x)) l).
Proof.
  induction l as [|a l IH]; simpl; [reflexivity|].
  rewrite IH. destruct (f (g a)); reflexivity.
Qed.

(** Selecting by index and selecting the paired rows give the same rows. *)
Lemma rows_by_index (Q : list num -> list num -> bool) (ds : list (list num)) :
  forall ms, length ds = length ms ->
  map (fun i => nth i ds [])
      (filter (fun i => Q (nth i ds []) (nth i ms [])) (seq 0 (length ds)))
  = map fst (filter (fun p => Q (fst p) (snd p)) (combine ds ms)).
Proof.
  induction ds as [|d ds IH]; intros [|m ms] Hlen; try discriminate; [reflexivity|].
  injection Hlen as Hlen. cbn [length seq].
  rewrite <- seq_shift. cbn [filter combine nth fst snd].
  rewrite filter_map_comm. cbn [nth].
  destruct (Q d m); cbn [map nth fst]; rewrite map_map; cbn [nth];
    rewrite (IH ms Hlen); reflexivity.
Qed.

Lemma kept_equal_rows (data mask : array2 num) (v : num) :
  nrows data = nrows mask ->
  map (voxel data) (kept data mask "=" [TNum v]) =
  map fst (filter (fun p => neqb (hd n0 (snd p)) v && negb (neqb (nsum (fst p)) n0))
                  (combine (rows data) (rows mask))).
Proof.
  intros Hn. unfold kept, nrows in *.
  rewrite <- (rows_by_index (fun d m => neqb (hd n0 m) v && negb (neqb (nsum d) n0))
                _ _ Hn).
  unfold voxel. f_equal. apply filter_ext. intros i.
  unfold selected, zero_sum, mask_value, voxel, rule_op. simpl.
  rewrite orb_false_r. reflexivity.
Qed.
End MeanRoi.

(** C6.  When no voxel is selected for a label (every voxel either does
    not carry the label or is a zero-sum voxel), [get_mean_roi] returns,
    without an exception, the vector of [T] NaNs, [T] the number of
    timepoints. *)
Theorem get_mean_roi_empty_selection_nan :
  forall (num : Type) (N : Numeric num) (data mask : array2 num) (val : label num),
    nrows data = nrows mask -> wf mask -> ncols mask = 1 ->
    (forall i, i < nrows data ->
               selected data mask "=" [label_threshold val] i = false) ->
    get_mean_roi data mask val = Ok (repeat nan (ncols data))
    /\ length (repeat (nan (num := num)) (ncols data)) = ncols data.
Proof.
  intros num N data mask val Hn Hwf Hc Hsel.
  split; [|apply repeat_length].
  rewrite (get_mean_roi_spec data mask val Hn Hwf Hc).
  replace (kept data mask "=" [label_threshold val]) with (@nil nat).
  - simpl. rewrite nanmean_axis0_empty. reflexivity.
  - symmetry. unfold kept.
    destruct (filter _ _) as [|i l] eqn:E; [reflexivity|].
    assert (Hi : In i (i :: l)) by (left; reflexivity).
    rewrite <- E in Hi. apply filter_In in Hi as [Hi Hs].
    apply in_seq in Hi. rewrite Hsel in Hs by lia. discriminate.
Qed.

(** In binary64 the value [nan] is the NaN, and so it is in exact
    arithmetic. *)
Lemma nan_float64 : nan (num := float) = PrimFloat.nan /\ isnan (nan (num := float)) = true.
Proof. split; reflexivity. Qed.

Lemma nan_exact : nan (num := xreal) = NaN.
Proof.
  unfold nan. simpl. destruct (Req_dec_T 0 0) as [_|H]; [reflexivity|].
  exfalso. apply H. reflexivity.
Qed.

Lemma get_mean_roi_empty_selection_nan_witness :
  get_mean_roi scenario_data scenario_mask (LInt 3)
  = Ok (repeat nan (ncols scenario_data))
  /\ length (repeat (nan (num := float)) (ncols scenario_data)) = ncols scenario_data.
Proof.
  apply (get_mean_roi_empty_selection_nan float float64 scenario_data scenario_mask (LInt 3)).
  - reflexivity.
  - repeat constructor.
  - reflexivity.
  - intros i Hi. change (nrows scenario_data) with 4 in Hi.
    destruct i as [|[|[|[|i]]]]; [reflexivity..|lia].
Defined.

(** C2, as the specification words it, fails on the specification's own
    scenario: voxel 1 carries label 1 but its series is all zero, so
    [maskdata] drops it and the mean for label 1 is [1, 2, 3], while the
    mean over all rows with mask value 1 is [0.5, 1, 1.5]. *)
Lemma mean_after_maskdata_not_plain_mean :
  get_mean_roi scenario_data scenario_mask (LNum 1%float) = Ok [1; 2; 3]%float
  /\ (out <- maskdata scenario_data scenario_mask "=" (PyList [TNum 1%float]) ;;
      Ok (nanmean_axis0 (fst out))) = Ok [1; 2; 3]%float
  /\ mean_where_equal scenario_data scenario_mask 1%float = [0.5; 1; 1.5]%float
  /\ (out <- maskdata scenario_data scenario_mask "=" (PyList [TNum 1%float]) ;;
      Ok (nanmean_axis0 (fst out)))
     <> Ok (mean_where_equal scenario_data scenario_mask 1%float).
Proof.
  split; [reflexivity|]. split; [reflexivity|]. split; [reflexivity|].
  intros H.
  assert (E := f_equal (fun r => match r with
                                 | Ok (x :: _) => PrimFloat.eqb x 1
                                 | _ => false
                                 end) H).
  vm_compute in E. discriminate.
Qed.

(** C2, amended.  [maskdata] with rule "=" and thresholds [[v]] followed
    by the column-wise mean, which is what [get_mean_roi] computes,
    equals the column-wise mean over the rows whose mask value equals
    [v] and whose time series does not sum to zero. *)
Theorem mean_after_maskdata_is_mean_of_nonzero_rows :
  forall (num : Type) (N : Numeric num) (data mask : array2 num) (v : num),
    nrows data = nrows mask -> wf mask -> ncols mask = 1 ->
    (out <- maskdata data mask "=" (PyList [TNum v]) ;; Ok (nanmean_axis0 (fst out)))
    = Ok (mean_where_equal_nonzero data mask v)
    /\ get_mean_roi data mask (LNum v) = Ok (mean_where_equal_nonzero data mask v).
Proof.
  intros num N data mask v Hn Hwf Hc.
  unfold mean_where_equal_nonzero. rewrite <- (kept_equal_rows data mask v Hn).
  split.
  - rewrite (maskdata_spec data mask "=" _ Hn Hwf Hc eq_refl). reflexivity.
  - apply (get_mean_roi_spec data mask (LNum v) Hn Hwf Hc).
Qed.

Lemma mean_after_maskdata_is_mean_of_nonzero_rows_witness :
  (out <- maskdata scenario_data scenario_mask "=" (PyList [TNum 2%float]) ;;
   Ok (nanmean_axis0 (fst out)))
  = Ok (mean_where_equal_nonzero scenario_data scenario_mask 2%float)
  /\ get_mean_roi scenario_data scenario_mask (LNum 2%float)
     = Ok (mean_where_equal_nonzero scenario_data scenario_mask 2%float).
Proof.
  apply (mean_after_maskdata_is_mean_of_nonzero_rows float float64
           scenario_data scenario_mask 2%float).
  - reflexivity.
  - repeat constructor.
  - reflexivity.
Defined.

(** * translate *)

Section Translate.
Context {num : Type} {N : Numeric num}.

Lemma broadcast_cells_scalar (r : list num) (m : num) :
  broadcast (fun x y => Ok (ndiv x y)) r [m] = Ok (map (fun x => ndiv x m) r).
Proof.
  unfold broadcast. destruct (Nat.eqb (length r) (length [m])) eqn:E.
  - apply Nat.eqb_eq in E. destruct r as [|x [|x' r]]; try discriminate. reflexivity.
  - destruct r as [|x [|x' r]].
    + reflexivity.
    + discriminate.
    + apply mapM_Ok_total.
Qed.

Lemma divide_by_column (data : array2 num) (f : list num -> num) :
  divide data (mkArray 1 (map (fun r => [f r]) (rows data))) = Ok (rows_divided data f).
Proof.
  unfold divide, rows_divided, broadcast. simpl.
  rewrite length_map, Nat.eqb_refl.
  replace (mapM _ _) with
    (Ok (A := list (list num)) (map (fun r => map (fun x => ndiv x (f r)) r) (rows data))).
  - simpl. unfold broadcast_dim. destruct (Nat.eqb (ncols data) 1) eqn:E; [|reflexivity].
    apply Nat.eqb_eq in E. rewrite E. reflexivity.
  - symmetry. induction (rows data) as [|r rs IH]; simpl; [reflexivity|].
    change (if Nat.eqb (length r) 1 then _ else _)
      with (broadcast (fun x y => Ok (ndiv x y)) r [f r]).
    rewrite broadcast_cells_scalar. simpl. rewrite IH. reflexivity.
Qed.

(** With more than one factor [translate] checks the length and hands
    the data back as it came. *)
Lemma translate_many_factors (data : array2 num) (factors : list num) :
  1 < length factors ->
  translate data factors =
  if Nat.eqb (nrows data) (length factors) then Ok data
  else Err (ShapeMismatch
              "You submitted a set of factors of the wrong size for the input data!").
Proof.
  intros H. unfold translate.
  apply Nat.ltb_lt in H. rewrite H. simpl.
  destruct (Nat.eqb (nrows data) (length factors)); simpl; [|reflexivity].
  apply Nat.ltb_lt in H.
  destruct (Nat.eqb (length factors) 1) eqn:E1; [apply Nat.eqb_eq in E1; lia|].
  destruct (Nat.eqb (length factors) 0) eqn:E0; [apply Nat.eqb_eq in E0; lia|].
  reflexivity.
Qed.
End Translate.

(** C3.  The failure half holds: with more than one factor, [translate]
    fails with ShapeMismatch exactly when the number of factors differs
    from the number of rows.  The other half does not: on two rows and
    the two factors [2, 2] the data comes back undivided, [[2,4],[6,8]]
    where row-wise division gives [[1,2],[3,4]]. *)
Theorem translate_per_voxel_factors_not_applied :
  (forall (num : Type) (N : Numeric num) (data : array2 num) (factors : list num),
      1 < length factors ->
      ((exists msg, translate data factors = Err (ShapeMismatch msg))
       <-> length factors <> nrows data)
      /\ (length factors = nrows data -> translate data factors = Ok data))
  /\ translate two_by_two [2; 2]%float = Ok two_by_two
  /\ divided_per_row two_by_two [2; 2]%float = mkArray 2 [[1; 2]; [3; 4]]%float
  /\ translate two_by_two [2; 2]%float <> Ok (divided_per_row two_by_two [2; 2]%float).
Proof.
  split.
  - intros num N data factors H. rewrite (translate_many_factors data factors H).
    destruct (Nat.eqb (nrows data) (length factors)) eqn:E.
    + apply Nat.eqb_eq in E. split.
      * split; [intros [msg Hm]; discriminate|intros Hne; congruence].
      * reflexivity.
    + apply Nat.eqb_neq in E. split.
      * split; [intros _; congruence|intros _; eexists; reflexivity].
      * intros Hl. congruence.
  - split; [reflexivity|]. split; [reflexivity|].
    intros H.
    assert (E := f_equal (fun r => match r with
                                   | Ok (mkArray _ ((x :: _) :: _)) => PrimFloat.eqb x 2
                                   | _ => false
                                   end) H).
    vm_compute in E. discriminate.
Qed.

(** C4.  With no factors [translate] returns the matrix in which every
    row is divided, element by element, by the mean of that row; nothing
    is subtracted.  The row [2, 4, 6], of mean 4, becomes [0.5, 1, 1.5]
    and not [-2, 0, 2]. *)
Theorem translate_no_factors_divides_by_row_mean :
  (forall (num : Type) (N : Numeric num) (data : array2 num),
      translate data [] = Ok (rows_divided data mean))
  /\ mean [2; 4; 6]%float = 4%float
  /\ translate (mkArray 3 [[2; 4; 6]]%float) [] = Ok (mkArray 3 [[0.5; 1; 1.5]]%float)
  /\ translate (mkArray 3 [[2; 4; 6]]%float) []
     <> Ok (mkArray 3 [map (fun x => nsub x (mean [2; 4; 6]%float)) [2; 4; 6]%float]).
Proof.
  split.
  - intros num N data. unfold translate. simpl. apply divide_by_column.
  - split; [reflexivity|]. split; [reflexivity|].
    intros H.
    assert (E := f_equal (fun r => match r with
                                   | Ok (mkArray _ ((x :: _) :: _)) => PrimFloat.eqb x 0.5
                                   | _ => false
                                   end) H).
    vm_compute in E. discriminate.
Qed.

(** * roi_graph *)

Section RoiGraph.
Context {num : Type} {N : Numeric num}.

Lemma nanmean_axis0_length (a : array2 num) : length (nanmean_axis0 a) = ncols a.
Proof. unfold nanmean_axis0. rewrite length_map, length_seq. reflexivity. Qed.

Lemma region_mean_length (data mask : array2 num) (roi : num) :
  length (region_mean data mask roi) = ncols data.
Proof. unfold region_mean. rewrite nanmean_axis0_length. reflexivity. Qed.

Lemma get_mean_roi_region (data mask : array2 num) (roi : num) :
  nrows data = nrows mask -> wf mask -> ncols mask = 1 ->
  get_mean_roi data mask (LNum roi) = Ok (region_mean data mask roi).
Proof. intros Hn Hwf Hc. apply (get_mean_roi_spec data mask (LNum roi) Hn Hwf Hc). Qed.

(** On well-shaped input the loop of [roi_graph] fills one row per
    region, in the order of [rois]. *)
Lemma roi_timeseries_spec (data mask : array2 num) :
  nrows data = nrows mask -> wf mask -> ncols mask = 1 ->
  roi_timeseries data mask = Ok (map (region_mean data mask) (rois mask)).
Proof.
  intros Hn Hwf Hc. unfold roi_timeseries.
  rewrite <- mapM_Ok_total. apply mapM_ext_in. intros roi _.
  rewrite (get_mean_roi_region data mask roi Hn Hwf Hc). simpl.
  unfold set_row. rewrite region_mean_length, Nat.eqb_refl. reflexivity.
Qed.

Lemma roi_graph_spec (data mask : array2 num) :
  nrows data = nrows mask -> wf mask -> ncols mask = 1 ->
  roi_graph data mask =
  Ok (corrcoef (ncols data) (map (region_mean data mask) (rois mask))).
Proof.
  intros Hn Hwf Hc. unfold roi_graph.
  rewrite (roi_timeseries_spec data mask Hn Hwf Hc). reflexivity.
Qed.

Lemma corrcoef_single (T : nat) (x0 : list num) :
  corrcoef T [x0] = Scalar (ndiv (cov T x0 x0) (cov T x0 x0)).
Proof. reflexivity. Qed.

Lemma corrcoef_matrix (T : nat) (x : list (list num)) :
  length x <> 1 ->
  corrcoef T x = Matrix (map (fun xi => map (correlation T xi) x) x).
Proof.
  intros H. destruct x as [|x0 [|x1 x]]; [reflexivity|simpl in H; congruence|].
  reflexivity.
Qed.

Lemma correlation_entry (T : nat) (x : list (list num)) (i j : nat) (xi xj : list num) :
  nth_error x i = Some xi -> nth_error x j = Some xj ->
  entry (map (fun xi => map (correlation T xi) x) x) i j = Some (correlation T xi xj).
Proof.
  intros Hi Hj. unfold entry.
  rewrite nth_error_map, Hi. simpl. rewrite nth_error_map, Hj. reflexivity.
Qed.


Hypothesis nmul_comm : forall a b : num, nmul a b = nmul b a.


End RoiGraph.

(** * Binary64 comparisons

    The comparisons of [PrimFloat] are specified through [SFcompare] on
    the unpacked form of a float; the order laws are read off it. *)

Section Float64Facts.

Ltac cmp_norm :=
  change (PosDef.Pos.compare_cont Eq) with Pos.compare in *.

Ltac cmp_cases :=
  repeat match goal with
    | |- context [Z.compare ?a ?b] => destruct (Z.compare_spec a b); subst
    | |- context [Pos.compare ?a ?b] => destruct (Pos.compare_spec a b); subst
    | H : context [Z.compare ?a ?b] |- _ => destruct (Z.compare_spec a b); subst
    | H : context [Pos.compare ?a ?b] |- _ => destruct (Pos.compare_spec a b); subst
    end.

Ltac cmp_solve :=
  cmp_norm; cmp_cases; simpl in *;
  try discriminate; try reflexivity; try lia; auto.

Lemma SFcompare_antisym (a b : spec_float) (c : comparison) :
  SFcompare a b = Some c -> SFcompare b a = Some (CompOpp c).
Proof.
  destruct a as [sa|sa| |sa ma ea], b as [sb|sb| |sb mb eb]; simpl;
    try discriminate; try (destruct sa); try (destruct sb);
    intros H; injection H as <-; cmp_solve.
Qed.

Lemma SFcompare_Eq_l (a b c : spec_float) :
  SFcompare a b = Some Eq -> SFcompare a c = SFcompare b c.
Proof.
  destruct a as [sa|sa| |sa ma ea], b as [sb|sb| |sb mb eb]; simpl;
    try discriminate; try (destruct sa); try (destruct sb); try discriminate;
    intros H; destruct c as [sc|sc| |sc mc ec]; simpl; try reflexivity;
    cmp_norm; try (destruct sc); simpl; try reflexivity;
    destruct (Z.compare_spec ea eb); try discriminate;
    destruct (Pos.compare_spec ma mb); try discriminate; subst; reflexivity.
Qed.

Lemma SFcompare_Lt_trans (a b c : spec_float) :
  SFcompare a b = Some Lt -> SFcompare b c = Some Lt -> SFcompare a c = Some Lt.
Proof.
  destruct a as [sa|sa| |sa ma ea], b as [sb|sb| |sb mb eb], c as [sc|sc| |sc mc ec];
    simpl; try discriminate;
    try (destruct sa); try (destruct sb); try (destruct sc);
    try discriminate; try reflexivity;
    intros H1 H2; cmp_solve.
Qed.

Lemma SFcompare_number (a b : spec_float) (c : comparison) :
  SFcompare a b = Some c -> SFcompare a a = Some Eq /\ SFcompare b b = Some Eq.
Proof.
  destruct a as [sa|sa| |sa ma ea], b as [sb|sb| |sb mb eb]; simpl;
    try discriminate; intros _; try (destruct sa); try (destruct sb);
    split; cmp_solve.
Qed.

Lemma SFcompare_defined (a b : spec_float) :
  SFcompare a a = Some Eq -> SFcompare b b = Some Eq ->
  exists c, SFcompare a b = Some c.
Proof.
  destruct a as [sa|sa| |sa ma ea], b as [sb|sb| |sb mb eb]; simpl;
    try discriminate; eauto.
Qed.

Lemma float64_eqb_compare (a b : float) :
  neqb a b = true <-> SFcompare (Prim2SF a) (Prim2SF b) = Some Eq.
Proof.
  simpl. rewrite eqb_spec. unfold SFeqb.
  destruct (SFcompare (Prim2SF a) (Prim2SF b)) as [[| |]|];
    split; intros H; try discriminate; reflexivity.
Qed.

Lemma float64_ltb_compare (a b : float) :
  nltb a b = true <-> SFcompare (Prim2SF a) (Prim2SF b) = Some Lt.
Proof.
  simpl. rewrite ltb_spec. unfold SFltb.
  destruct (SFcompare (Prim2SF a) (Prim2SF b)) as [[| |]|];
    split; intros H; try discriminate; reflexivity.
Qed.
End Float64Facts.

#[export] Instance float64_ordered : OrderedNumeric float64.
Proof.
  constructor.
  - intros a b. rewrite !float64_eqb_compare.
    intros H. apply SFcompare_antisym in H. exact H.
  - intros a b c. rewrite !float64_eqb_compare.
    intros H1 H2. rewrite (SFcompare_Eq_l _ _ _ H1). exact H2.
  - intros a b c. rewrite !float64_ltb_compare. apply SFcompare_Lt_trans.
  - intros a. destruct (nltb a a) eqn:E; [|reflexivity].
    apply float64_ltb_compare in E.
    destruct (SFcompare_number _ _ _ E) as [H _]. congruence.
  - intros a b. rewrite float64_ltb_compare, float64_eqb_compare.
    intros H. apply (SFcompare_number _ _ _ H).
  - intros a b. rewrite float64_ltb_compare, float64_eqb_compare.
    intros H. apply (SFcompare_number _ _ _ H).
  - intros a b. rewrite !float64_ltb_compare, !float64_eqb_compare.
    intros Ha Hb. destruct (SFcompare_defined _ _ Ha Hb) as ([| |] & H); auto.
    right. right. apply SFcompare_antisym in H. exact H.
  - intros a b c. rewrite !float64_ltb_compare, float64_eqb_compare.
    intros H1 H2. rewrite <- (SFcompare_Eq_l _ _ _ H1). exact H2.
  - intros a b c. rewrite !float64_ltb_compare, float64_eqb_compare.
    intros H1 H2. apply SFcompare_antisym in H2. simpl in H2.
    rewrite (SFcompare_Eq_l _ _ _ H1) in H2.
    apply SFcompare_antisym in H2. exact H2.
Qed.

(** * Exact arithmetic *)

Section ExactFacts.
Local Open Scope R_scope.

Lemma exact_div (a b : R) : b <> 0 -> ndiv (Fin a) (Fin b) = Fin (a / b).
Proof.
  intros H. simpl. destruct (Req_dec_T b 0) as [E|_]; [contradiction|reflexivity].
Qed.

Lemma exact_div_finite (x y : xreal) (q : R) :
  ndiv x y = Fin q -> exists a b, x = Fin a /\ y = Fin b /\ b <> 0 /\ q = a / b.
Proof.
  destruct x as [a|], y as [b|]; simpl; try discriminate.
  destruct (Req_dec_T b 0) as [E|E]; [discriminate|].
  intros H. injection H as <-. exists a, b. auto.
Qed.


Lemma exact_div_div (x a b : xreal) : ndiv (ndiv x a) b = ndiv x (nmul a b).
Proof.
  destruct x as [x|], a as [a|], b as [b|]; try reflexivity.
  - change (xdiv (xdiv (Fin x) (Fin a)) (Fin b) = xdiv (Fin x) (Fin (a * b))).
    unfold xdiv.
    destruct (Req_dec_T a 0) as [Ea|Ea].
    + destruct (Req_dec_T (a * b) 0) as [Eab|Eab]; [reflexivity|].
      exfalso. apply Eab. rewrite Ea. lra.
    + destruct (Req_dec_T b 0) as [Eb|Eb].
      * destruct (Req_dec_T (a * b) 0) as [Eab|Eab]; [reflexivity|].
        exfalso. apply Eab. rewrite Eb. lra.
      * destruct (Req_dec_T (a * b) 0) as [Eab|Eab].
        -- exfalso. destruct (Rmult_integral _ _ Eab); contradiction.
        -- f_equal. field. split; assumption.
  - change (xdiv (xdiv (Fin x) (Fin a)) NaN = NaN).
    unfold xdiv. destruct (Req_dec_T a 0); reflexivity.
Qed.
Lemma exact_isnan (a : R) : isnan (Fin a) = false.
Proof.
  unfold isnan. simpl. destruct (Req_dec_T a a) as [_|H]; [reflexivity|].
  exfalso. apply H. reflexivity.
Qed.

Lemma exact_minimum (a b : R) : minimum (Fin a) (Fin b) = Fin (Rmin a b).
Proof.
  unfold minimum. rewrite exact_isnan. simpl.
  destruct (Rlt_dec a b) as [H|H]; f_equal.
  - symmetry. apply Rmin_left. lra.
  - symmetry. apply Rmin_right. lra.
Qed.

Lemma exact_maximum (a b : R) : maximum (Fin a) (Fin b) = Fin (Rmax a b).
Proof.
  unfold maximum, gtb. rewrite exact_isnan. simpl.
  destruct (Rlt_dec b a) as [H|H]; f_equal.
  - symmetry. apply Rmax_left. lra.
  - symmetry. apply Rmax_right. lra.
Qed.

Lemma exact_np_min (l : list R) :
  l <> [] -> np_min (map Fin l) = Ok (Fin (Rlist_min l)).
Proof.
  destruct l as [|x t]; [congruence|]. intros _. simpl. f_equal.
  revert x. induction t as [|y t IH]; intros x; simpl; [reflexivity|].
  rewrite exact_minimum. apply IH.
Qed.

Lemma exact_np_max (l : list R) :
  l <> [] -> np_max (map Fin l) = Ok (Fin (Rlist_max l)).
Proof.
  destruct l as [|x t]; [congruence|]. intros _. simpl. f_equal.
  revert x. induction t as [|y t IH]; intros x; simpl; [reflexivity|].
  rewrite exact_maximum. apply IH.
Qed.

Lemma fold_Rmin_spec (t : list R) : forall x,
  In (fold_left Rmin t x) (x :: t)
  /\ forall y, In y (x :: t) -> fold_left Rmin t x <= y.
Proof.
  induction t as [|a t IH]; intros x; simpl.
  - split; [left; reflexivity|]. intros y [<-|[]]. lra.
  - destruct (IH (Rmin x a)) as [Hin Hle]. split.
    + destruct Hin as [E|Hin]; [|right; right; exact Hin].
      rewrite <- E. unfold Rmin. destruct (Rle_dec x a); auto.
    + intros y [<-|[<-|Hy]].
      * eapply Rle_trans; [apply Hle; left; reflexivity|apply Rmin_l].
      * eapply Rle_trans; [apply Hle; left; reflexivity|apply Rmin_r].
      * apply Hle. right. exact Hy.
Qed.

Lemma fold_Rmax_spec (t : list R) : forall x,
  In (fold_left Rmax t x) (x :: t)
  /\ forall y, In y (x :: t) -> y <= fold_left Rmax t x.
Proof.
  induction t as [|a t IH]; intros x; simpl.
  - split; [left; reflexivity|]. intros y [<-|[]]. lra.
  - destruct (IH (Rmax x a)) as [Hin Hle]. split.
    + destruct Hin as [E|Hin]; [|right; right; exact Hin].
      rewrite <- E. unfold Rmax. destruct (Rle_dec x a); auto.
    + intros y [<-|[<-|Hy]].
      * eapply Rle_trans; [apply Rmax_l|apply Hle; left; reflexivity].
      * eapply Rle_trans; [apply Rmax_r|apply Hle; left; reflexivity].
      * apply Hle. right. exact Hy.
Qed.

Lemma Rlist_min_spec (l : list R) :
  l <> [] -> In (Rlist_min l) l /\ forall y, In y l -> Rlist_min l <= y.
Proof. destruct l as [|x t]; [congruence|]. intros _. apply fold_Rmin_spec. Qed.

Lemma Rlist_max_spec (l : list R) :
  l <> [] -> In (Rlist_max l) l /\ forall y, In y l -> y <= Rlist_max l.
Proof. destruct l as [|x t]; [congruence|]. intros _. apply fold_Rmax_spec. Qed.

(** A list that contains a lower (upper) bound of itself has it as its
    minimum (maximum). *)
Lemma Rlist_min_eq (l : list R) (m : R) :
  In m l -> (forall y, In y l -> m <= y) -> Rlist_min l = m.
Proof.
  intros Hin Hle. assert (Hne : l <> []) by (intros ->; destruct Hin).
  destruct (Rlist_min_spec l Hne) as [Hin' Hle'].
  apply Rle_antisym; auto.
Qed.

Lemma Rlist_max_eq (l : list R) (m : R) :
  In m l -> (forall y, In y l -> y <= m) -> Rlist_max l = m.
Proof.
  intros Hin Hle. assert (Hne : l <> []) by (intros ->; destruct Hin).
  destruct (Rlist_max_spec l Hne) as [Hin' Hle'].
  apply Rle_antisym; auto.
Qed.


End ExactFacts.




(** * The diagonal of the correlation matrix, in exact arithmetic *)

Section ExactCorrelation.
Local Open Scope R_scope.

Lemma exact_of_nat (n : nat) : of_nat n = Fin (INR n).
Proof.
  induction n as [|n IH]; [reflexivity|].
  cbn [of_nat]. rewrite IH, S_INR. reflexivity.
Qed.

Lemma fold_Rplus_shift (l : list R) : forall a, fold_left Rplus l a = a + Rsum l.
Proof.
  unfold Rsum. induction l as [|x l IH]; intros a; simpl; [lra|].
  rewrite (IH (a + x)), (IH (0 + x)). lra.
Qed.

Lemma Rsum_cons (x : R) (l : list R) : Rsum (x :: l) = x + Rsum l.
Proof. unfold Rsum at 1. simpl. rewrite fold_Rplus_shift. lra. Qed.

Lemma Rsum_squares_nonneg (l : list R) : 0 <= Rsum (map (fun d => d * d) l).
Proof.
  induction l as [|d l IH]; [unfold Rsum; simpl; lra|].
  simpl. rewrite Rsum_cons. nra.
Qed.

Lemma exact_fold_add (l : list R) : forall a,
  fold_left nadd (map Fin l) (Fin a) = Fin (fold_left Rplus l a).
Proof. induction l as [|x l IH]; intros a; simpl; [reflexivity|apply IH]. Qed.

Lemma exact_nsum (l : list R) : nsum (map Fin l) = Fin (Rsum l).
Proof. apply exact_fold_add. Qed.

Lemma fold_add_NaN (l : list xreal) : fold_left nadd l NaN = NaN.
Proof. induction l as [|x l IH]; simpl; [reflexivity|exact IH]. Qed.

(** A sum is a number only when every term is. *)
Lemma fold_add_finite (l : list xreal) : forall acc s,
  fold_left nadd l acc = Fin s -> exists rs, l = map Fin rs.
Proof.
  induction l as [|x l IH]; intros acc s H.
  - exists []. reflexivity.
  - simpl in H. destruct acc as [a|]; [|simpl in H; rewrite fold_add_NaN in H; discriminate].
    destruct x as [r|]; [|simpl in H; rewrite fold_add_NaN in H; discriminate].
    destruct (IH _ _ H) as (rs & ->). exists (r :: rs). reflexivity.
Qed.

Lemma nsum_finite (l : list xreal) (s : R) :
  nsum l = Fin s -> exists rs, l = map Fin rs.
Proof. apply fold_add_finite. Qed.

Lemma dot_self (l : list xreal) :
  dot l l = nsum (map (fun d => nmul d d) l).
Proof.
  unfold dot. f_equal. induction l as [|d l IH]; [reflexivity|].
  cbn [map combine fst snd]. rewrite IH. reflexivity.
Qed.

(** When the squared deviations are numbers, so are the deviations. *)
Lemma squares_finite (l : list xreal) (qs : list R) :
  map (fun d => nmul d d) l = map Fin qs ->
  exists ds, l = map Fin ds /\ qs = map (fun d => d * d) ds.
Proof.
  revert qs. induction l as [|d l IH]; intros [|q qs] H; try discriminate.
  - exists []. split; reflexivity.
  - simpl in H. injection H as Hd H.
    destruct (IH qs H) as (ds & -> & ->).
    destruct d as [r|]; [|discriminate]. simpl in Hd. injection Hd as <-.
    exists (r :: ds). split; reflexivity.
Qed.

(** A series with a nonzero variance: its deviations from the mean are
    real numbers whose squares have a positive sum, and it has at least
    two points. *)
Lemma nonzero_variance_inv (x : list xreal) (v : R) :
  variance x = Fin v -> v <> 0 ->
  exists ds, demean x = map Fin ds
             /\ 0 < Rsum (map (fun d => d * d) ds)
             /\ (2 <= length x)%nat.
Proof.
  intros Hv Hv0. unfold variance, mean in Hv.
  apply exact_div_finite in Hv as (S & n & HS & Hn & Hn0 & ->).
  destruct (nsum_finite _ _ HS) as (qs & Hqs).
  destruct (squares_finite _ _ Hqs) as (ds & Hds & ->).
  rewrite Hqs, exact_nsum in HS. injection HS as HS.
  assert (HS0 : S <> 0).
  { intros ->. apply Hv0. unfold Rdiv. lra. }
  pose proof (Rsum_squares_nonneg ds) as Hpos.
  exists ds. split; [exact Hds|]. split; [lra|].
  destruct x as [|a [|b x]]; [| |simpl; lia].
  - exfalso. destruct ds; [|discriminate]. apply HS0. rewrite <- HS. reflexivity.
  - exfalso. unfold demean, mean in Hds. simpl in Hds.
    destruct ds as [|d [|]]; try discriminate. injection Hds as Hd.
    destruct a as [r|]; [|discriminate]. unfold nsum in Hd. simpl in Hd.
    destruct (Req_dec_T (0 + 1) 0) as [E|_]; [lra|]. simpl in Hd. injection Hd as <-.
    apply HS0. rewrite <- HS. unfold Rsum. simpl. field.
Qed.

(** The covariance of a series of nonzero variance with itself is a
    positive number. *)
Lemma exact_self_covariance (x : list xreal) (v : R) :
  variance x = Fin v -> v <> 0 ->
  exists c, cov (length x) x x = Fin c /\ 0 < c.
Proof.
  intros Hv Hv0.
  destruct (nonzero_variance_inv x v Hv Hv0) as (ds & Hds & HS & Hlen).
  unfold cov. rewrite dot_self, Hds, map_map. simpl.
  rewrite <- (map_map (fun d => d * d) Fin), exact_nsum, exact_of_nat.
  assert (Hn : 0 < INR (length x - 1)) by (apply lt_0_INR; lia).
  destruct (Req_dec_T (INR (length x - 1)) 0) as [E|_]; [lra|]. simpl.
  eexists. split; [reflexivity|].
  apply Rmult_lt_0_compat; [exact HS|]. apply Rdiv_lt_0_compat; lra.
Qed.

Lemma exact_clip_one : clip (Fin 1) (nsub n0 n1) n1 = Fin 1.
Proof.
  unfold clip. simpl. rewrite exact_maximum, exact_minimum. f_equal.
  rewrite Rmax_left by lra. apply Rmin_left. lra.
Qed.

(** The correlation of a series of nonzero variance with itself is 1,
    as an entry of the matrix and as the scalar of a single row. *)
Lemma exact_self_correlation (x : list xreal) (v : R) :
  variance x = Fin v -> v <> 0 ->
  correlation (length x) x x = Fin 1
  /\ ndiv (cov (length x) x x) (cov (length x) x x) = Fin 1.
Proof.
  intros Hv Hv0.
  destruct (exact_self_covariance x v Hv Hv0) as (c & Hcov & Hc).
  unfold correlation. rewrite Hcov. split.
  - pose proof (sqrt_lt_R0 c Hc) as Hs.
    pose proof (sqrt_sqrt c (Rlt_le _ _ Hc)) as Hss.
    assert (E : nsqrt (Fin c) = Fin (sqrt c)).
    { simpl. destruct (Rlt_dec c 0) as [H|_]; [lra|reflexivity]. }
    rewrite E, !exact_div by lra.
    replace (c / sqrt c / sqrt c) with 1; [apply exact_clip_one|].
    rewrite <- Hss at 1. field. lra.
  - rewrite exact_div by lra. f_equal. apply Rdiv_diag. lra.
Qed.

End ExactCorrelation.

(** Evaluation of the exact model on concrete numbers: unfold down to
    the comparisons of reals and decide each of them. *)
Ltac decide_reals :=
  repeat match goal with
    | |- context [Req_dec_T ?a ?b] =>
        destruct (Req_dec_T a b); [try (exfalso; lra)|try (exfalso; lra)]
    | |- context [Rlt_dec ?a ?b] =>
        destruct (Rlt_dec a b); [try (exfalso; lra)|try (exfalso; lra)]
    end.

Ltac exact_eval :=
  cbv - [IZR Rplus Rmult Rminus Rdiv Ropp Rinv Req_dec_T Rlt_dec sqrt];
  decide_reals.

(** C8, as stated, fails in binary64: the mean series of the first
    region of [steep_data], [0, 2^600], is not constant, its variance
    is computed as infinity, which is not zero, and the diagonal entry
    of the region is NaN, not 1. *)
Lemma roi_graph_diagonal_overflow :
  roi_timeseries steep_data steep_mask = Ok [[0; 0x1p600]; [1; 2]]%float
  /\ variance [0; 0x1p600]%float = infinity
  /\ neqb (variance [0; 0x1p600]%float) n0 = false
  /\ roi_graph steep_data steep_mask
     = Ok (Matrix [[PrimFloat.nan; 0]; [0; 0x1.fffffffffffffp-1]]%float)
  /\ (G <- roi_graph steep_data steep_mask ;;
      Ok (match G with
          | Matrix M => match entry M 0 0 with Some g => neqb g n1 | None => false end
          | Scalar g => neqb g n1
          end))
     = Ok false.
Proof. repeat split; reflexivity. Qed.

(** C8, amended.  In exact arithmetic, on well-shaped input: when the
    mean time series of region [i] (the series [get_mean_roi] returns
    for the [i]-th label) has a nonzero variance, [roi_graph] returns a
    matrix whose diagonal entry [(i, i)] is 1 or, when that region is
    the only one, the scalar 1. *)
Theorem roi_graph_diagonal_one :
  forall (data mask : array2 xreal) (i : nat) (roi : xreal)
         (series : list xreal) (v : R),
    nrows data = nrows mask -> wf mask -> ncols mask = 1 ->
    nth_error (rois mask) i = Some roi ->
    get_mean_roi data mask (LNum roi) = Ok series ->
    variance series = Fin v -> v <> 0%R ->
    exists G,
      roi_graph data mask = Ok G
      /\ match G with
         | Matrix M => length (rois mask) <> 1 /\ entry M i i = Some (Fin 1)
         | Scalar g => length (rois mask) = 1 /\ g = Fin 1
         end.
Proof.
  intros data mask i roi series v Hn Hwf Hc Hi Hs Hv Hv0.
  rewrite (get_mean_roi_region data mask roi Hn Hwf Hc) in Hs. injection Hs as Hs.
  eexists. split; [apply (roi_graph_spec data mask Hn Hwf Hc)|].
  assert (Hrow : nth_error (map (region_mean data mask) (rois mask)) i = Some series).
  { rewrite nth_error_map, Hi. simpl. rewrite Hs. reflexivity. }
  assert (Hlen : length series = ncols data).
  { rewrite <- Hs. apply region_mean_length. }
  destruct (exact_self_correlation series v Hv Hv0) as [Hm Hsc].
  rewrite Hlen in Hm, Hsc.
  destruct (Nat.eq_dec (length (rois mask)) 1) as [E|E].
  - destruct (rois mask) as [|r [|r' l]] eqn:Er; try discriminate.
    destruct i as [|i]; [|destruct i; discriminate].
    simpl in Hrow. injection Hrow as Hrow.
    cbn [map]. rewrite corrcoef_single, Hrow. split; [reflexivity|exact Hsc].
  - rewrite corrcoef_matrix by (rewrite length_map; exact E).
    split; [exact E|].
    rewrite (correlation_entry _ _ i i series series Hrow Hrow). f_equal. exact Hm.
Qed.

Lemma roi_graph_diagonal_one_witness :
  exists G,
    roi_graph exact_data exact_mask = Ok G
    /\ match G with
       | Matrix M => length (rois exact_mask) <> 1 /\ entry M 0 0 = Some (Fin 1)
       | Scalar g => length (rois exact_mask) = 1 /\ g = Fin 1
       end.
Proof.
  apply (roi_graph_diagonal_one exact_data exact_mask 0 (Fin 1)
           [Fin 1; Fin 2; Fin 3] (2 / 3)%R).
  - reflexivity.
  - repeat constructor.
  - reflexivity.
  - exact_eval. reflexivity.
  - exact_eval. repeat f_equal; field.
  - exact_eval. f_equal. field.
  - lra.
Defined.

(** The scenario of the specification in binary64: regions 1 and 2 have
    the mean series [1, 2, 3] and [5.5, 6.5, 7.5], and each correlates
    with itself, and here with the other, at 1.0. *)
Example roi_graph_scenario :
  rois scenario_mask = [1; 2]%float
  /\ roi_timeseries scenario_data scenario_mask
     = Ok [[1; 2; 3]; [5.5; 6.5; 7.5]]%float
  /\ roi_graph scenario_data scenario_mask = Ok (Matrix [[1; 1]; [1; 1]]%float).
Proof. repeat split; reflexivity. Qed.

(** C10, as stated, fails in binary64.  The two series of [uneven_data],
    [8, 5, 2] and [8, 3, 4], have the covariances 9, 7 and, with each
    other, 6, all computed without rounding.  [corrcoef] divides the
    rows of the covariance matrix by the roots 3 and [sqrt 7] and then
    the columns: entry [(0, 1)] is [(6 / 3) / sqrt 7], entry [(1, 0)] is
    [(6 / sqrt 7) / 3], and the two quotients round differently, to
    0.7559289460184544 and 0.75592894601845451. *)
Lemma roi_graph_rounding_not_symmetric :
  roi_timeseries uneven_data uneven_mask = Ok [[8; 5; 2]; [8; 3; 4]]%float
  /\ cov 3 [8; 5; 2]%float [8; 5; 2]%float = 9%float
  /\ cov 3 [8; 3; 4]%float [8; 3; 4]%float = 7%float
  /\ cov 3 [8; 5; 2]%float [8; 3; 4]%float = 6%float
  /\ cov 3 [8; 3; 4]%float [8; 5; 2]%float = 6%float
  /\ roi_graph uneven_data uneven_mask
     = Ok (Matrix [[1; 0x1.83091e6a7f7e6p-1];
                   [0x1.83091e6a7f7e7p-1; 0x1.ffffffffffffep-1]]%float)
  /\ (G <- roi_graph uneven_data uneven_mask ;;
      Ok (match G with
          | Matrix M => match entry M 0 1, entry M 1 0 with
                        | Some a, Some b => neqb a b
                        | _, _ => false
                        end
          | Scalar _ => false
          end))
     = Ok false.
Proof. repeat split; reflexivity. Qed.



(** * The region list *)

Section Rois.
Context {num : Type} {N : Numeric num} {L : OrderedNumeric N}.

Lemma np_lt_true (a b : num) :
  np_lt a b = true <->
  nltb a b = true \/ (neqb b b = false /\ neqb a a = true).
Proof.
  unfold np_lt, isnan.
  rewrite orb_true_iff, andb_true_iff, !negb_true_iff, negb_false_iff. tauto.
Qed.

Lemma np_lt_false (a b : num) :
  np_lt a b = false <->
  nltb a b = false /\ (neqb b b = true \/ neqb a a = false).
Proof.
  unfold np_lt, isnan.
  rewrite orb_false_iff, andb_false_iff, !negb_false_iff, negb_true_iff. tauto.
Qed.

Lemma nltb_false_of_nan_l (a b : num) : neqb a a = false -> nltb a b = false.
Proof.
  intros H. destruct (nltb a b) eqn:E; [|reflexivity].
  apply nltb_number_l in E. congruence.
Qed.

Lemma nltb_asym (a b : num) : nltb a b = true -> nltb b a = false.
Proof.
  intros H. destruct (nltb b a) eqn:E; [|reflexivity].
  pose proof (nltb_trans _ _ _ H E) as Haa. rewrite nltb_irrefl in Haa. discriminate.
Qed.

Lemma np_lt_asym (a b : num) : np_lt a b = true -> np_lt b a = false.
Proof.
  rewrite np_lt_true, np_lt_false. intros [H|[Hb Ha]].
  - split; [apply nltb_asym; exact H|]. left. eapply nltb_number_l; exact H.
  - split; [apply nltb_false_of_nan_l; exact Hb|]. left. exact Ha.
Qed.

Lemma np_before_trans (a b c : num) :
  before np_lt a b -> before np_lt b c -> before np_lt a c.
Proof.
  unfold before. rewrite !np_lt_false. intros [Hba Hab] [Hcb Hbc]. split.
  - destruct (nltb c a) eqn:Hca; [exfalso|reflexivity].
    pose proof (nltb_number_l _ _ Hca) as Hc.
    pose proof (nltb_number_r _ _ Hca) as Ha.
    assert (Hb : neqb b b = true) by (destruct Hbc; congruence).
    destruct (nltb_total b a Hb Ha) as [H|[H|H]].
    + congruence.
    + apply neqb_sym in H. pose proof (nltb_neqb_r _ _ _ H Hca). congruence.
    + pose proof (nltb_trans _ _ _ Hca H). congruence.
  - destruct Hab as [Ha|Hb]; [left; exact Ha|].
    destruct Hbc as [Hb'|Hc]; [congruence|right; exact Hc].
Qed.

Lemma np_before_refl (a : num) : before np_lt a a.
Proof.
  unfold before. rewrite np_lt_false. split; [apply nltb_irrefl|].
  destruct (neqb a a); auto.
Qed.

Lemma below_step (p y : num) :
  before np_lt p y -> negb (neqb y p) = true -> below p y.
Proof.
  unfold before, below. rewrite np_lt_false, negb_true_iff. intros [Hyp Hnum] Hne.
  destruct (neqb y y) eqn:Hy; [left|right; reflexivity].
  assert (Hp : neqb p p = true) by (destruct Hnum; congruence).
  destruct (nltb_total p y Hp Hy) as [H|[H|H]]; [exact H| |congruence].
  apply neqb_sym in H. congruence.
Qed.

Lemma below_left (a p y : num) : before np_lt a p -> below p y -> below a y.
Proof.
  unfold before, below. rewrite np_lt_false. intros [Hpa Hnum] [Hpy|Hy]; [left|right; exact Hy].
  pose proof (nltb_number_l _ _ Hpy) as Hp.
  assert (Ha : neqb a a = true) by (destruct Hnum; congruence).
  destruct (nltb_total a p Ha Hp) as [H|[H|H]]; [| |congruence].
  - eapply nltb_trans; eassumption.
  - apply neqb_sym in H. eapply nltb_neqb_l; eassumption.
Qed.

Lemma unique_num_sorted (l : list num) : StronglySorted below (unique_num l).
Proof.
  unfold unique_num. apply unique_sorted.
  - apply np_lt_asym.
  - apply np_before_trans.
  - apply below_step.
  - apply below_left.
  - apply np_before_refl.
Qed.

Lemma unique_num_complete (l : list num) (x : num) :
  In x l -> neqb x x = true ->
  exists r, In r (unique_num l) /\ neqb r x = true.
Proof.
  intros Hin Hx. unfold unique_num.
  apply (unique_complete num np_lt (fun a b => negb (neqb a b))
           (fun a b => neqb a b = true)); auto.
  - intros y p H. apply negb_false_iff in H. apply neqb_sym. exact H.
  - apply neqb_trans.
Qed.

Lemma sorted_weaken {A : Type} (R R' : A -> A -> Prop) (l : list A) :
  StronglySorted R l ->
  (forall a b, In b l -> R a b -> R' a b) ->
  StronglySorted R' l.
Proof.
  induction 1 as [|a l Hs IH Ha]; intros Himp; constructor.
  - apply IH. intros x y Hy. apply Himp. right. exact Hy.
  - rewrite Forall_forall in *. intros y Hy. apply Himp; [right; exact Hy|auto].
Qed.

Lemma rois_sorted (mask : array2 num) :
  StronglySorted (fun a b => nltb a b = true) (rois mask).
Proof.
  unfold rois. apply sorted_weaken with (R := below).
  - apply filter_sorted, unique_num_sorted.
  - intros a b Hb [H|H]; [exact H|].
    apply filter_In in Hb as [_ Hb]. unfold gtb in Hb.
    apply nltb_number_r in Hb. congruence.
Qed.

Lemma rois_sound (mask : array2 num) (x : num) :
  In x (rois mask) -> In x (concat (rows mask)) /\ gtb x n0 = true.
Proof.
  unfold rois. intros H. apply filter_In in H as [H Hpos]. split; [|exact Hpos].
  eapply unique_incl. exact H.
Qed.

Lemma rois_complete (mask : array2 num) (c : num) :
  In c (concat (rows mask)) -> gtb c n0 = true ->
  exists x, In x (rois mask) /\ neqb x c = true.
Proof.
  intros Hin Hpos. unfold gtb in Hpos.
  destruct (unique_num_complete _ c Hin (nltb_number_r _ _ Hpos)) as (r & Hr & Hrc).
  exists r. split; [|exact Hrc].
  unfold rois. apply filter_In. split; [exact Hr|].
  unfold gtb. apply neqb_sym in Hrc. eapply nltb_neqb_r; eassumption.
Qed.
End Rois.

(** C7.  The region list of [roi_graph] is strictly ascending (so free
    of repeats); each of its entries is a mask value greater than zero;
    every mask value greater than zero is, up to [==], in it; and on
    well-shaped input row [i] of the series array is the mean series of
    the [i]-th entry, the [i]-th smallest positive label. *)
Theorem rois_are_sorted_positive_labels :
  forall (num : Type) (N : Numeric num) (L : OrderedNumeric N) (mask : array2 num),
    StronglySorted (fun a b => nltb a b = true) (rois mask)
    /\ (forall x, In x (rois mask) ->
                  In x (concat (rows mask)) /\ gtb x n0 = true)
    /\ (forall c, In c (concat (rows mask)) -> gtb c n0 = true ->
                  exists x, In x (rois mask) /\ neqb x c = true)
    /\ (forall data, nrows data = nrows mask -> wf mask -> ncols mask = 1 ->
          exists ts,
            roi_timeseries data mask = Ok ts
            /\ Forall2 (fun roi row => get_mean_roi data mask (LNum roi) = Ok row)
                       (rois mask) ts).
Proof.
  intros num N L mask.
  split; [apply rois_sorted|].
  split; [apply rois_sound|].
  split; [apply rois_complete|].
  intros data Hn Hwf Hc.
  exists (map (region_mean data mask) (rois mask)).
  split; [apply (roi_timeseries_spec data mask Hn Hwf Hc)|].
  induction (rois mask) as [|roi l IH]; simpl; constructor; [|exact IH].
  apply (get_mean_roi_region data mask roi Hn Hwf Hc).
Qed.

#[export] Instance exact_ordered : OrderedNumeric exact.
Proof.
  constructor.
  - intros [a|] [b|]; simpl; try discriminate.
    destruct (Req_dec_T a b), (Req_dec_T b a); congruence.
  - intros [a|] [b|] [c|]; simpl; try discriminate.
    destruct (Req_dec_T a b), (Req_dec_T b c), (Req_dec_T a c); congruence.
  - intros [a|] [b|] [c|]; simpl; try discriminate.
    destruct (Rlt_dec a b), (Rlt_dec b c), (Rlt_dec a c); try discriminate; try reflexivity.
    lra.
  - intros [a|]; simpl; [|reflexivity].
    destruct (Rlt_dec a a); [lra|reflexivity].
  - intros [a|] [b|]; simpl; try discriminate.
    destruct (Req_dec_T a a); congruence.
  - intros [a|] [b|]; simpl; try discriminate.
    destruct (Req_dec_T b b); congruence.
  - intros [a|] [b|]; simpl; try discriminate. intros _ _.
    destruct (Rlt_dec a b), (Req_dec_T a b), (Rlt_dec b a); auto. lra.
  - intros [a|] [b|] [c|]; simpl; try discriminate.
    destruct (Req_dec_T a b), (Rlt_dec a c), (Rlt_dec b c); try discriminate; try reflexivity.
    lra.
  - intros [a|] [b|] [c|]; simpl; try discriminate.
    destruct (Req_dec_T a b), (Rlt_dec c a), (Rlt_dec c b); try discriminate; try reflexivity.
    lra.
Qed.

Lemma rois_are_sorted_positive_labels_witness :
  StronglySorted (fun a b => nltb a b = true) (rois scenario_mask)
  /\ (forall x, In x (rois scenario_mask) ->
                In x (concat (rows scenario_mask)) /\ gtb x n0 = true)
  /\ (forall c, In c (concat (rows scenario_mask)) -> gtb c n0 = true ->
                exists x, In x (rois scenario_mask) /\ neqb x c = true)
  /\ exists ts,
       roi_timeseries scenario_data scenario_mask = Ok ts
       /\ Forall2 (fun roi row =>
                     get_mean_roi scenario_data scenario_mask (LNum roi) = Ok row)
                  (rois scenario_mask) ts.
Proof.
  destruct (rois_are_sorted_positive_labels float float64 float64_ordered scenario_mask)
    as (Hsorted & Hsound & Hcomplete & Hrows).
  split; [exact Hsorted|]. split; [exact Hsound|]. split; [exact Hcomplete|].
  apply (Hrows scenario_data).
  - reflexivity.
  - repeat constructor.
  - reflexivity.
Defined.

(** In exact arithmetic [==] is equality of numbers, so the region list
    holds exactly the mask values that are greater than zero. *)
Lemma rois_exact_In (mask : array2 xreal) (x : xreal) :
  In x (rois mask) <-> In x (concat (rows mask)) /\ gtb x n0 = true.
Proof.
  split; [apply rois_sound|]. intros [Hin Hpos].
  destruct (rois_complete mask x Hin Hpos) as (r & Hr & Hrx).
  destruct r as [r|], x as [y|]; simpl in Hrx; try discriminate.
  destruct (Req_dec_T r y) as [->|]; [exact Hr|discriminate].
Qed.


(** * More about maskdata and get_mean_roi *)

Section MaskDataMore.
Context {num : Type} {N : Numeric num}.

Lemma mapM_Err {A B : Type} (f : A -> result B) (l : list A) (e : error) :
  mapM f l = Err e -> exists a, In a l /\ f a = Err e.
Proof.
  induction l as [|a l IH]; simpl; [discriminate|].
  destruct (f a) as [b|e'] eqn:Ea; simpl.
  - destruct (mapM f l) as [bs|e'']; simpl; [discriminate|].
    intros H. injection H as ->. destruct (IH eq_refl) as (x & Hx & Hfx). eauto.
  - intros H. injection H as ->. eauto.
Qed.

(** The errors NumPy raises inside [maskdata]. *)
Definition from_numpy (e : error) : Prop :=
  (exists msg, e = ValueError msg) \/ e = IndexError.

Lemma broadcast_cmp_Err (op : num -> num -> bool) (r ts : list num) (e : error) :
  broadcast (fun m t => Ok (op m t)) r ts = Err e -> from_numpy e.
Proof.
  unfold broadcast. destruct (Nat.eqb (length r) (length ts)).
  - rewrite (mapM_Ok_total (fun p => op (fst p) (snd p))). discriminate.
  - destruct r as [|x [|x' r]], ts as [|t [|t' ts]];
      rewrite ?(mapM_Ok_total (fun y => op x y)),
              ?(mapM_Ok_total (fun x => op x t));
      try discriminate; intros H; injection H as <-; left; eauto.
Qed.

Lemma compare_Err (op : num -> num -> bool) (mask : array2 num) (t : thr num) (e : error) :
  compare op mask t = Err e -> from_numpy e.
Proof.
  destruct t as [t|ts]; simpl; [discriminate|].
  intros H. apply mapM_Err in H as (r & _ & H).
  eapply broadcast_cmp_Err; exact H.
Qed.

Lemma add_threshold_Err (rule : string) (mask : array2 num) (idx : list nat)
    (t : thr num) (e : error) :
  add_threshold rule mask idx t = Err e -> from_numpy e.
Proof.
  unfold add_threshold.
  destruct (String.eqb rule "="); [|destruct (String.eqb rule ">");
    [|destruct (String.eqb rule "<"); [|discriminate]]];
    match goal with
    | |- bind (compare ?op mask t) _ = _ -> _ =>
        destruct (compare op mask t) as [b|e'] eqn:E; simpl; [discriminate|];
        intros H; injection H as <-; eapply compare_Err; exact E
    end.
Qed.

Lemma thresholds_loop_Err (rule : string) (mask : array2 num) (ts : list (thr num)) :
  forall idx e, thresholds_loop rule mask idx ts = Err e -> from_numpy e.
Proof.
  induction ts as [|t ts IH]; intros idx e; simpl; [discriminate|].
  destruct (add_threshold rule mask idx t) as [idx'|e'] eqn:E; simpl.
  - apply IH.
  - intros H. injection H as <-. eapply add_threshold_Err; exact E.
Qed.

Lemma take_rows_Err (data : array2 num) (idx : list nat) (e : error) :
  take_rows data idx = Err e -> from_numpy e.
Proof.
  unfold take_rows. destruct (mapM _ idx) as [rs|e'] eqn:E; simpl; [discriminate|].
  intros H. injection H as <-. apply mapM_Err in E as (i & _ & E).
  destruct (nth_error (rows data) i); [discriminate|]. injection E as <-. right. reflexivity.
Qed.

(** Past the two shape checks, what [maskdata] can still raise. *)
Lemma maskdata_after_checks (data mask : array2 num) (rule : string)
    (threshold : pyarg num) (e : error) :
  nrows data = nrows mask -> ncols mask <= 1 ->
  maskdata data mask rule threshold = Err e ->
  (exists msg, e = InvalidArgument msg) \/ from_numpy e.
Proof.
  intros Hn Hc. unfold maskdata, check_dims, check_mask.
  rewrite Hn, Nat.eqb_refl. simpl.
  replace (Nat.ltb 1 (ncols mask)) with false by (symmetry; apply Nat.ltb_ge; exact Hc).
  simpl. destruct (valid_rule rule); simpl.
  - destruct threshold as [ts|ts|t]; try (intros H; injection H as <-; left; eauto).
    destruct (thresholds_loop rule mask [] ts) as [idx|e'] eqn:El; simpl.
    + destruct (take_rows data _) as [d|e'] eqn:Et; simpl; [discriminate|].
      intros H. injection H as <-. right. eapply take_rows_Err; exact Et.
    + intros H. injection H as <-. right. eapply thresholds_loop_Err; exact El.
  - intros H. injection H as <-. left. eauto.
Qed.

Lemma kept_threshold_ext (data mask : array2 num) (rule : string)
    (ts ts' : list (thr num)) :
  (forall i, i < nrows data ->
     existsb (fun t => meets (rule_op rule) t (mask_value mask i)) ts
     = existsb (fun t => meets (rule_op rule) t (mask_value mask i)) ts') ->
  kept data mask rule ts = kept data mask rule ts'.
Proof.
  intros H. unfold kept. apply filter_ext_in. intros i Hi.
  apply in_seq in Hi. unfold selected. rewrite H by lia. reflexivity.
Qed.

Lemma existsb_same_members {A : Type} (f : A -> bool) (l l' : list A) :
  (forall a, In a l <-> In a l') -> existsb f l = existsb f l'.
Proof.
  intros H. destruct (existsb f l) eqn:E; symmetry.
  - apply existsb_exists in E as (a & Ha & Hf). apply existsb_exists.
    exists a. split; [apply H; exact Ha|exact Hf].
  - destruct (existsb f l') eqn:E'; [|reflexivity].
    apply existsb_exists in E' as (a & Ha & Hf).
    assert (existsb f l = true); [|congruence].
    apply existsb_exists. exists a. split; [apply H; exact Ha|exact Hf].
Qed.

Lemma meets_sequence (op : num -> num -> bool) (xs : list num) (m : num) :
  existsb (fun t => meets op t m) (map TNum xs) = meets op (TSeq xs) m.
Proof.
  simpl. induction xs as [|x xs IH]; simpl; [reflexivity|]. rewrite IH. reflexivity.
Qed.
End MaskDataMore.

(** X1.  The shape checks of [maskdata] come first: whatever the rule
    and the thresholds, valid or not, the call fails with ShapeMismatch
    exactly when data and mask differ in their number of rows, and with
    InvalidMask exactly when they agree and the mask has more than one
    column. *)
Theorem maskdata_shape_checks_come_first :
  forall (num : Type) (N : Numeric num) (data mask : array2 num)
         (rule : string) (threshold : pyarg num),
    ((exists msg, maskdata data mask rule threshold = Err (ShapeMismatch msg))
     <-> nrows data <> nrows mask)
    /\ ((exists msg, maskdata data mask rule threshold = Err (InvalidMask msg))
        <-> (nrows data = nrows mask /\ 1 < ncols mask)).
Proof.
  intros num N data mask rule threshold.
  destruct (Nat.eq_dec (nrows data) (nrows mask)) as [Hn|Hn].
  - destruct (Nat.ltb_spec 1 (ncols mask)) as [Hc|Hc].
    + assert (E : maskdata data mask rule threshold
                  = Err (InvalidMask "Your mask can't contain multiple values per voxel!")).
      { unfold maskdata, check_dims, check_mask. rewrite Hn, Nat.eqb_refl. simpl.
        apply Nat.ltb_lt in Hc. rewrite Hc. reflexivity. }
      rewrite E. split; split.
      * intros [msg H]. discriminate.
      * intros H. contradiction.
      * intros _. split; assumption.
      * intros _. eexists. reflexivity.
    + split; split.
      * intros [msg H].
        destruct (maskdata_after_checks data mask rule threshold _ Hn Hc H)
          as [[m Hm]|[[m Hm]|Hm]]; discriminate.
      * intros H. contradiction.
      * intros [msg H].
        destruct (maskdata_after_checks data mask rule threshold _ Hn Hc H)
          as [[m Hm]|[[m Hm]|Hm]]; discriminate.
      * intros [_ H]. lia.
  - assert (E : maskdata data mask rule threshold
                = Err (ShapeMismatch "Your data and mask are not in from the same space!")).
    { unfold maskdata, check_dims. apply Nat.eqb_neq in Hn. rewrite Hn. reflexivity. }
    rewrite E. split; split.
    + intros _. exact Hn.
    + intros _. eexists. reflexivity.
    + intros [msg H]. discriminate.
    + intros [H _]. contradiction.
Qed.

(** X2.  On well-shaped input the index list [maskdata] returns holds
    exactly the voxels whose mask value satisfies the rule for at least
    one threshold and whose time series does not sum to zero. *)
Theorem maskdata_selects_exactly :
  forall (num : Type) (N : Numeric num) (data mask : array2 num)
         (rule : string) (ts : list (thr num)),
    nrows data = nrows mask -> wf mask -> ncols mask = 1 ->
    valid_rule rule = true ->
    exists out idx,
      maskdata data mask rule (PyList ts) = Ok (out, idx)
      /\ forall i, In i idx <->
           (i < nrows data
            /\ (exists t, In t ts /\ meets (rule_op rule) t (mask_value mask i) = true)
            /\ zero_sum data i = false).
Proof.
  intros num N data mask rule ts Hn Hwf Hc Hr.
  eexists. eexists. split; [apply (maskdata_spec data mask rule ts Hn Hwf Hc Hr)|].
  intros i. rewrite kept_In. unfold selected.
  rewrite andb_true_iff, negb_true_iff, existsb_exists. tauto.
Qed.

Lemma maskdata_selects_exactly_witness :
  exists out idx,
    maskdata scenario_data scenario_mask "=" (PyList [TNum 1%float]) = Ok (out, idx)
    /\ forall i, In i idx <->
         (i < nrows scenario_data
          /\ (exists t, In t [TNum 1%float]
                        /\ meets (rule_op "=") t (mask_value scenario_mask i) = true)
          /\ zero_sum scenario_data i = false).
Proof.
  apply (maskdata_selects_exactly float float64 scenario_data scenario_mask "="
           [TNum 1%float]).
  - reflexivity.
  - repeat constructor.
  - reflexivity.
  - reflexivity.
Defined.

(** X3.  The result of [maskdata] depends on the thresholds only as a
    set: two threshold lists with the same entries, in any order and
    with any repeats, give the same rows and the same indices. *)
Theorem maskdata_thresholds_as_set :
  forall (num : Type) (N : Numeric num) (data mask : array2 num)
         (rule : string) (ts ts' : list (thr num)),
    nrows data = nrows mask -> wf mask -> ncols mask = 1 ->
    valid_rule rule = true ->
    (forall t, In t ts <-> In t ts') ->
    maskdata data mask rule (PyList ts) = maskdata data mask rule (PyList ts')
    /\ exists out, maskdata data mask rule (PyList ts) = Ok out.
Proof.
  intros num N data mask rule ts ts' Hn Hwf Hc Hr Hsame.
  rewrite (maskdata_spec data mask rule ts Hn Hwf Hc Hr),
          (maskdata_spec data mask rule ts' Hn Hwf Hc Hr).
  rewrite (kept_threshold_ext data mask rule ts ts').
  - split; [reflexivity|eexists; reflexivity].
  - intros i _. apply existsb_same_members. exact Hsame.
Qed.

Lemma maskdata_thresholds_as_set_witness :
  maskdata scenario_data scenario_mask "=" (PyList [TNum 1%float; TNum 2%float])
  = maskdata scenario_data scenario_mask "="
      (PyList [TNum 2%float; TNum 1%float; TNum 2%float])
  /\ exists out,
       maskdata scenario_data scenario_mask "=" (PyList [TNum 1%float; TNum 2%float])
       = Ok out.
Proof.
  apply (maskdata_thresholds_as_set float float64 scenario_data scenario_mask "="
           [TNum 1%float; TNum 2%float] [TNum 2%float; TNum 1%float; TNum 2%float]).
  - reflexivity.
  - repeat constructor.
  - reflexivity.
  - reflexivity.
  - intros t. simpl. tauto.
Defined.

(** X4.  A threshold that is itself a sequence of numbers selects what
    the list of those numbers, given one by one, selects. *)
Theorem maskdata_sequence_threshold_is_union :
  forall (num : Type) (N : Numeric num) (data mask : array2 num)
         (rule : string) (xs : list num),
    nrows data = nrows mask -> wf mask -> ncols mask = 1 ->
    valid_rule rule = true ->
    maskdata data mask rule (PyList [TSeq xs])
    = maskdata data mask rule (PyList (map TNum xs))
    /\ exists out, maskdata data mask rule (PyList [TSeq xs]) = Ok out.
Proof.
  intros num N data mask rule xs Hn Hwf Hc Hr.
  rewrite (maskdata_spec data mask rule [TSeq xs] Hn Hwf Hc Hr),
          (maskdata_spec data mask rule (map TNum xs) Hn Hwf Hc Hr).
  rewrite (kept_threshold_ext data mask rule [TSeq xs] (map TNum xs)).
  - split; [reflexivity|eexists; reflexivity].
  - intros i _. rewrite meets_sequence. simpl. apply orb_false_r.
Qed.

Lemma maskdata_sequence_threshold_is_union_witness :
  maskdata scenario_data scenario_mask "=" (PyList [TSeq [1; 2]%float])
  = maskdata scenario_data scenario_mask "=" (PyList (map TNum [1; 2]%float))
  /\ exists out,
       maskdata scenario_data scenario_mask "=" (PyList [TSeq [1; 2]%float]) = Ok out.
Proof.
  apply (maskdata_sequence_threshold_is_union float float64 scenario_data scenario_mask
           "=" [1; 2]%float).
  - reflexivity.
  - repeat constructor.
  - reflexivity.
  - reflexivity.
Defined.

(** X5.  A label given to [get_mean_roi] as a Python int, as the same
    number in a NumPy scalar, or as a one-element list gives the same
    series; and whatever the label, the series has one value per
    timepoint. *)
Theorem get_mean_roi_label_forms_agree :
  forall (num : Type) (N : Numeric num) (data mask : array2 num) (n : Z),
    nrows data = nrows mask -> wf mask -> ncols mask = 1 ->
    get_mean_roi data mask (LInt n) = get_mean_roi data mask (LNum (of_Z n))
    /\ get_mean_roi data mask (LSeq [of_Z n]) = get_mean_roi data mask (LNum (of_Z n))
    /\ forall val, exists series,
         get_mean_roi data mask val = Ok series /\ length series = ncols data.
Proof.
  intros num N data mask n Hn Hwf Hc.
  assert (E : get_mean_roi data mask (LInt n) = get_mean_roi data mask (LNum (of_Z n))).
  { rewrite !(get_mean_roi_spec data mask _ Hn Hwf Hc). simpl.
    rewrite (kept_threshold_ext data mask "=" [TSeq [of_Z n]] [TNum (of_Z n)]);
      [reflexivity|].
    intros i _. cbn [existsb meets]. rewrite !orb_false_r. reflexivity. }
  split; [exact E|]. split; [exact E|].
  intros val. eexists. split; [apply (get_mean_roi_spec data mask val Hn Hwf Hc)|].
  rewrite nanmean_axis0_length. reflexivity.
Qed.

Lemma get_mean_roi_label_forms_agree_witness :
  get_mean_roi scenario_data scenario_mask (LInt 2)
  = get_mean_roi scenario_data scenario_mask (LNum (of_Z 2))
  /\ get_mean_roi scenario_data scenario_mask (LSeq [of_Z 2])
     = get_mean_roi scenario_data scenario_mask (LNum (of_Z 2))
  /\ forall val, exists series,
       get_mean_roi scenario_data scenario_mask val = Ok series
       /\ length series = ncols scenario_data.
Proof.
  apply (get_mean_roi_label_forms_agree float float64 scenario_data scenario_mask 2%Z).
  - reflexivity.
  - repeat constructor.
  - reflexivity.
Defined.

Section RulesApart.
Context {num : Type} {N : Numeric num} {L : OrderedNumeric N}.

Lemma nltb_not_neqb (a b : num) : nltb a b = true -> neqb a b = false.
Proof.
  intros H. destruct (neqb a b) eqn:E; [|reflexivity].
  pose proof (nltb_neqb_l _ _ _ E H) as Hbb. rewrite nltb_irrefl in Hbb. discriminate.
Qed.

Lemma neqb_not_nltb (a b : num) : neqb a b = true -> nltb b a = false.
Proof.
  intros H. destruct (nltb b a) eqn:E; [|reflexivity].
  apply neqb_sym in H. pose proof (nltb_not_neqb _ _ E). congruence.
Qed.

Lemma neqb_number_l (a b : num) : neqb a b = true -> neqb a a = true.
Proof. intros H. eapply neqb_trans; [exact H|apply neqb_sym; exact H]. Qed.

Lemma kept_scalar_In (data mask : array2 num) (rule : string) (t : num) (i : nat) :
  In i (kept data mask rule [TNum t]) <->
  i < nrows data /\ rule_op rule (mask_value mask i) t = true /\ zero_sum data i = false.
Proof.
  rewrite kept_In. unfold selected. cbn [existsb meets].
  rewrite orb_false_r, andb_true_iff, negb_true_iff. tauto.
Qed.
End RulesApart.

(** X6.  For one scalar threshold the three rules keep disjoint sets of
    voxels; a voxel whose mask value and threshold are both numbers and
    whose series does not sum to zero is kept by exactly one of them; a
    voxel whose mask value is NaN is kept by none. *)
Theorem maskdata_rules_split_the_voxels :
  forall (num : Type) (N : Numeric num) (L : OrderedNumeric N)
         (data mask : array2 num) (t : num),
    nrows data = nrows mask -> wf mask -> ncols mask = 1 ->
    exists below_ equal_ above_ lo eq hi,
      maskdata data mask "<" (PyList [TNum t]) = Ok (below_, lo)
      /\ maskdata data mask "=" (PyList [TNum t]) = Ok (equal_, eq)
      /\ maskdata data mask ">" (PyList [TNum t]) = Ok (above_, hi)
      /\ forall i,
           (In i lo -> ~ In i eq /\ ~ In i hi)
           /\ (In i eq -> ~ In i hi)
           /\ (i < nrows data -> zero_sum data i = false ->
               isnan (mask_value mask i) = false -> isnan t = false ->
               In i lo \/ In i eq \/ In i hi)
           /\ (isnan (mask_value mask i) = true ->
               ~ In i lo /\ ~ In i eq /\ ~ In i hi).
Proof.
  intros num N L data mask t Hn Hwf Hc.
  do 6 eexists.
  split; [apply (maskdata_spec data mask "<" _ Hn Hwf Hc eq_refl)|].
  split; [apply (maskdata_spec data mask "=" _ Hn Hwf Hc eq_refl)|].
  split; [apply (maskdata_spec data mask ">" _ Hn Hwf Hc eq_refl)|].
  intros i. rewrite !kept_scalar_In.
  change (rule_op "<") with (@nltb num N).
  change (rule_op "=") with (@neqb num N).
  change (rule_op ">") with (@gtb num N).
  unfold gtb, isnan. set (m := mask_value mask i).
  split; [|split; [|split]].
  - intros (_ & Hlt & _). split; intros (_ & H & _).
    + pose proof (nltb_not_neqb _ _ Hlt). congruence.
    + pose proof (nltb_asym _ _ Hlt). congruence.
  - intros (_ & Heq & _) (_ & H & _).
    pose proof (neqb_not_nltb _ _ Heq). congruence.
  - intros Hi Hz Hm Ht. apply negb_false_iff in Hm, Ht.
    destruct (nltb_total m t Hm Ht) as [H|[H|H]]; auto.
  - intros Hm. apply negb_true_iff in Hm. repeat split; intros (_ & H & _).
    + apply nltb_number_l in H. congruence.
    + apply neqb_number_l in H. congruence.
    + apply nltb_number_r in H. congruence.
Qed.

Lemma maskdata_rules_split_the_voxels_witness :
  exists below_ equal_ above_ lo eq hi,
    maskdata scenario_data scenario_mask "<" (PyList [TNum 2%float]) = Ok (below_, lo)
    /\ maskdata scenario_data scenario_mask "=" (PyList [TNum 2%float]) = Ok (equal_, eq)
    /\ maskdata scenario_data scenario_mask ">" (PyList [TNum 2%float]) = Ok (above_, hi)
    /\ forall i,
         (In i lo -> ~ In i eq /\ ~ In i hi)
         /\ (In i eq -> ~ In i hi)
         /\ (i < nrows scenario_data -> zero_sum scenario_data i = false ->
             isnan (mask_value scenario_mask i) = false -> isnan 2%float = false ->
             In i lo \/ In i eq \/ In i hi)
         /\ (isnan (mask_value scenario_mask i) = true ->
             ~ In i lo /\ ~ In i eq /\ ~ In i hi).
Proof.
  apply (maskdata_rules_split_the_voxels float float64 float64_ordered
           scenario_data scenario_mask 2%float).
  - reflexivity.
  - repeat constructor.
  - reflexivity.
Defined.

(** * More about translate *)

Section TranslateMore.
Context {num : Type} {N : Numeric num}.

Lemma divide_by_scalar (data : array2 num) (c : num) :
  divide data (mkArray 1 [[c]]) = Ok (rows_divided data (fun _ => c)).
Proof.
  unfold divide, rows_divided.
  assert (E : broadcast (fun r s => broadcast (fun x y => Ok (ndiv x y)) r s)
                        (rows data) [[c]]
              = Ok (map (fun r => map (fun x => ndiv x c) r) (rows data))).
  { unfold broadcast at 1. destruct (rows data) as [|r [|r' rs]].
    - reflexivity.
    - simpl. rewrite broadcast_cells_scalar. reflexivity.
    - cbn [length Nat.eqb].
      rewrite <- mapM_Ok_total. apply mapM_ext_in. intros x _.
      apply broadcast_cells_scalar. }
  cbn [rows ncols]. rewrite E. simpl. unfold broadcast_dim.
  destruct (Nat.eqb (ncols data) 1) eqn:E1; [|reflexivity].
  apply Nat.eqb_eq in E1. rewrite E1. reflexivity.
Qed.

Lemma rows_divided_shape (data : array2 num) (f : list num -> num) :
  ncols (rows_divided data f) = ncols data
  /\ Forall2 (fun r r' => length r' = length r) (rows data) (rows (rows_divided data f)).
Proof.
  split; [reflexivity|]. simpl.
  induction (rows data) as [|r rs IH]; simpl; constructor; [apply length_map|exact IH].
Qed.

Lemma same_shape_refl (l : list (list num)) :
  Forall2 (fun r r' : list num => length r' = length r) l l.
Proof. induction l; constructor; auto. Qed.
End TranslateMore.

(** X7.  With exactly one factor [translate] divides every value of the
    data by that factor. *)
Theorem translate_one_factor_divides_all :
  forall (num : Type) (N : Numeric num) (data : array2 num) (c : num),
    translate data [c] = Ok (rows_divided data (fun _ => c)).
Proof.
  intros num N data c. unfold translate. simpl. apply divide_by_scalar.
Qed.

(** X8.  [translate] has one way to fail and never changes the shape:
    for every data matrix and every list of factors it either fails with
    ShapeMismatch, the factors being more than one and not one per row,
    or returns a matrix with the same number of columns and rows of the
    same lengths as the data. *)
Theorem translate_fails_one_way_keeps_shape :
  forall (num : Type) (N : Numeric num) (data : array2 num) (factors : list num),
    (exists msg, translate data factors = Err (ShapeMismatch msg)
                 /\ 1 < length factors /\ length factors <> nrows data)
    \/ (exists out, translate data factors = Ok out
                    /\ ncols out = ncols data
                    /\ Forall2 (fun r r' => length r' = length r) (rows data) (rows out)).
Proof.
  intros num N data factors.
  destruct factors as [|c [|c' factors]].
  - right. exists (rows_divided data mean). split.
    + unfold translate. simpl. apply divide_by_column.
    + apply rows_divided_shape.
  - right. exists (rows_divided data (fun _ => c)). split.
    + unfold translate. simpl. apply divide_by_scalar.
    + apply rows_divided_shape.
  - assert (Hlen : 1 < length (c :: c' :: factors)) by (simpl; lia).
    rewrite (translate_many_factors data _ Hlen).
    destruct (Nat.eqb (nrows data) (length (c :: c' :: factors))) eqn:E.
    + right. exists data. split; [reflexivity|]. split; [reflexivity|].
      apply same_shape_refl.
    + left. eexists. split; [reflexivity|]. split; [exact Hlen|].
      apply Nat.eqb_neq in E. congruence.
Qed.

(** * More about scale_timeseries *)

Section ScaleMore.
Local Open Scope R_scope.

(** What [scale_timeseries] computes on any non-empty series of reals. *)
Lemma exact_scale_general (xs : list R) :
  xs <> [] ->
  scale_timeseries (map Fin xs) =
  Ok (map (fun x => ndiv (Fin (x - Rlist_min xs))
                         (Fin (Rlist_max (map (fun x => x - Rlist_min xs) xs))))
          xs).
Proof.
  intros Hne. unfold scale_timeseries.
  rewrite (exact_np_min xs Hne). simpl.
  rewrite map_map. simpl.
  rewrite <- (map_map (fun x => x - Rlist_min xs) Fin).
  rewrite exact_np_max by (destruct xs; [congruence|discriminate]). simpl.
  rewrite !map_map. reflexivity.
Qed.

Lemma Rlist_min_map (f : R -> R) (xs : list R) :
  xs <> [] -> (forall x y, x <= y -> f x <= f y) ->
  Rlist_min (map f xs) = f (Rlist_min xs).
Proof.
  intros Hne Hf. destruct (Rlist_min_spec xs Hne) as [Hin Hle].
  apply Rlist_min_eq.
  - apply in_map. exact Hin.
  - intros y Hy. apply in_map_iff in Hy as (x & <- & Hx). apply Hf, Hle, Hx.
Qed.

Lemma Rlist_max_map (f : R -> R) (xs : list R) :
  xs <> [] -> (forall x y, x <= y -> f x <= f y) ->
  Rlist_max (map f xs) = f (Rlist_max xs).
Proof.
  intros Hne Hf. destruct (Rlist_max_spec xs Hne) as [Hin Hle].
  apply Rlist_max_eq.
  - apply in_map. exact Hin.
  - intros y Hy. apply in_map_iff in Hy as (x & <- & Hx). apply Hf, Hle, Hx.
Qed.

Lemma map_not_nil {A B : Type} (f : A -> B) (l : list A) : l <> [] -> map f l <> [].
Proof. destruct l; [congruence|discriminate]. Qed.
End ScaleMore.

(** X9.  The degenerate inputs of [scale_timeseries]: on the empty
    series it raises NumPy's ValueError, whatever the number type; on a
    constant series of real numbers it raises nothing and returns a
    series of the same length in which every value is NaN. *)
Theorem scale_timeseries_degenerate_inputs :
  (forall (num : Type) (N : Numeric num),
      exists msg, scale_timeseries (@nil num) = Err (ValueError msg))
  /\ (forall (c : R) (n : nat),
        scale_timeseries (repeat (Fin c) (S n)) = Ok (repeat NaN (S n))).
Proof.
  split.
  - intros num N. eexists. reflexivity.
  - intros c n.
    assert (Hrep : repeat (Fin c) (S n) = map Fin (repeat c (S n))).
    { symmetry. apply map_repeat. }
    rewrite Hrep, exact_scale_general by discriminate.
    assert (Hmin : Rlist_min (repeat c (S n)) = c).
    { apply Rlist_min_eq; [left; reflexivity|].
      intros y Hy. apply repeat_spec in Hy. subst y. lra. }
    rewrite Hmin.
    assert (Hmax : Rlist_max (map (fun x => (x - c)%R) (repeat c (S n))) = 0%R).
    { rewrite map_repeat. apply Rlist_max_eq; [left; lra|].
      intros y Hy. apply repeat_spec in Hy. subst y. lra. }
    rewrite Hmax, map_repeat. f_equal. f_equal. simpl.
    destruct (Req_dec_T 0 0) as [_|H]; [reflexivity|]. exfalso. apply H. reflexivity.
Qed.

(** X10.  In exact arithmetic [scale_timeseries] does not see a change
    of unit and origin: a series and its image under [x -> a*x + b],
    [a] positive, scale to the same series (both fail when empty, both
    are all NaN when constant). *)
Theorem scale_timeseries_affine_invariant :
  forall (xs : list R) (a b : R),
    (0 < a)%R ->
    scale_timeseries (map Fin (map (fun x => (a * x + b)%R) xs))
    = scale_timeseries (map Fin xs).
Proof.
  intros xs a b Ha.
  destruct xs as [|x0 xs']; [reflexivity|].
  set (xs := x0 :: xs') in *.
  assert (Hne : xs <> []) by discriminate.
  rewrite (exact_scale_general xs Hne).
  rewrite (exact_scale_general _ (map_not_nil _ xs Hne)).
  rewrite (Rlist_min_map (fun x => (a * x + b)%R) xs Hne)
    by (intros x y Hxy; nra).
  set (m := Rlist_min xs).
  assert (Hdev : map (fun x => (x - (a * m + b))%R) (map (fun x => (a * x + b)%R) xs)
                 = map (fun y => (a * y)%R) (map (fun x => (x - m)%R) xs)).
  { rewrite !map_map. apply map_ext. intros x. lra. }
  rewrite Hdev.
  rewrite (Rlist_max_map (fun y => (a * y)%R) _ (map_not_nil _ xs Hne))
    by (intros x y Hxy; nra).
  set (M := Rlist_max (map (fun x => (x - m)%R) xs)).
  rewrite map_map. f_equal. apply map_ext. intros x. simpl.
  destruct (Req_dec_T (a * M) 0) as [E|E], (Req_dec_T M 0) as [E'|E'];
    try reflexivity.
  - exfalso. apply E'. nra.
  - exfalso. apply E. rewrite E'. lra.
  - f_equal. field. split; lra.
Qed.

Lemma scale_timeseries_affine_invariant_witness :
  scale_timeseries (map Fin (map (fun x => (2 * x + 5)%R) [3; 1; 2]%R))
  = scale_timeseries (map Fin [3; 1; 2]%R).
Proof.
  apply (scale_timeseries_affine_invariant [3; 1; 2]%R 2%R 5%R). lra.
Defined.

(** * More about roi_graph *)

Section NaNRegion.

Lemma exact_fold_add_NaN_in (l : list xreal) : forall acc,
  In NaN l -> fold_left nadd l acc = NaN.
Proof.
  induction l as [|x l IH]; intros acc Hin; [destruct Hin|].
  simpl. destruct Hin as [->|Hin].
  - replace (xlift2 Rplus acc NaN) with NaN by (destruct acc; reflexivity).
    apply fold_add_NaN.
  - apply IH. exact Hin.
Qed.

Lemma exact_div_NaN_l (y : xreal) : ndiv NaN y = NaN.
Proof. reflexivity. Qed.

Lemma demean_length (x : list xreal) : length (demean x) = length x.
Proof. unfold demean. apply length_map. Qed.

Lemma exact_dot_NaN (x y : list xreal) :
  x <> [] -> y <> [] -> (hd NaN x = NaN \/ hd NaN y = NaN) -> dot x y = NaN.
Proof.
  intros Hx Hy H. destruct x as [|a x]; [congruence|]. destruct y as [|b y]; [congruence|].
  unfold dot, nsum. apply exact_fold_add_NaN_in. left. simpl in *.
  destruct H as [->| ->]; [reflexivity|destruct a; reflexivity].
Qed.

Lemma exact_demean_NaN (T : nat) :
  demean (repeat NaN (S T)) <> [] /\ hd NaN (demean (repeat NaN (S T))) = NaN.
Proof. split; [discriminate|reflexivity]. Qed.

(** The covariance of an all-NaN series with any series of the same
    length is NaN. *)
Lemma exact_cov_NaN (T : nat) (y : list xreal) :
  length y = T ->
  cov T (repeat NaN T) y = NaN /\ cov T y (repeat NaN T) = NaN.
Proof.
  intros Hy. destruct T as [|T].
  - destruct y; [|discriminate]. unfold cov, dot, demean, nsum. simpl.
    destruct (Req_dec_T 0 0) as [_|H]; [auto|]. exfalso. apply H. reflexivity.
  - assert (Hd : demean y <> []).
    { intros E. apply (f_equal (@length _)) in E. rewrite demean_length, Hy in E.
      discriminate. }
    destruct (exact_demean_NaN T) as [Hne Hhd].
    unfold cov. split.
    + rewrite (exact_dot_NaN _ _ Hne Hd (or_introl Hhd)). reflexivity.
    + rewrite (exact_dot_NaN _ _ Hd Hne (or_intror Hhd)). reflexivity.
Qed.

(** A correlation computed from an undefined covariance is undefined. *)
Lemma exact_correlation_NaN (T : nat) (x y : list xreal) :
  cov T x y = NaN -> correlation T x y = NaN.
Proof. intros H. unfold correlation. rewrite H. reflexivity. Qed.
End NaNRegion.

(** X11.  In exact arithmetic, on well-shaped input: a region none of
    whose voxels survives the removal of zero-sum voxels does not make
    [roi_graph] fail; every entry of its row and of its column in the
    returned matrix, the diagonal one included, is NaN, and so is the
    scalar returned when it is the only region. *)
Theorem roi_graph_empty_region_is_nan :
  forall (data mask : array2 xreal) (i : nat) (roi : xreal),
    nrows data = nrows mask -> wf mask -> ncols mask = 1 ->
    nth_error (rois mask) i = Some roi ->
    (forall v, v < nrows data -> selected data mask "=" [TNum roi] v = false) ->
    exists G,
      roi_graph data mask = Ok G
      /\ match G with
         | Matrix M =>
             length (rois mask) <> 1
             /\ forall j, j < length (rois mask) ->
                  entry M i j = Some NaN /\ entry M j i = Some NaN
         | Scalar g => length (rois mask) = 1 /\ g = NaN
         end.
Proof.
  intros data mask i roi Hn Hwf Hc Hi Hsel.
  eexists. split; [apply (roi_graph_spec data mask Hn Hwf Hc)|].
  assert (Hrow : region_mean data mask roi = repeat NaN (ncols data)).
  { unfold region_mean.
    replace (kept data mask "=" [TNum roi]) with (@nil nat).
    - simpl. rewrite nanmean_axis0_empty, nan_exact. reflexivity.
    - symmetry. unfold kept.
      destruct (filter _ _) as [|v l] eqn:E; [reflexivity|].
      assert (Hv : In v (v :: l)) by (left; reflexivity).
      rewrite <- E in Hv. apply filter_In in Hv as [Hv Hs].
      apply in_seq in Hv. rewrite Hsel in Hs by lia. discriminate. }
  assert (Hxi : nth_error (map (region_mean data mask) (rois mask)) i
                = Some (repeat NaN (ncols data))).
  { rewrite nth_error_map, Hi. simpl. rewrite Hrow. reflexivity. }
  destruct (Nat.eq_dec (length (rois mask)) 1) as [E|E].
  - destruct (rois mask) as [|r [|r' l]] eqn:Er; try discriminate.
    destruct i as [|i]; [|destruct i; discriminate].
    simpl in Hxi. injection Hxi as Hxi.
    cbn [map]. rewrite corrcoef_single, Hxi. split; [reflexivity|].
    destruct (exact_cov_NaN (ncols data) (repeat NaN (ncols data))
                (repeat_length _ _)) as [-> _].
    reflexivity.
  - rewrite corrcoef_matrix by (rewrite length_map; exact E).
    split; [exact E|]. intros j Hj.
    destruct (nth_error (rois mask) j) as [roj|] eqn:Ej;
      [|apply nth_error_None in Ej; lia].
    assert (Hxj : nth_error (map (region_mean data mask) (rois mask)) j
                  = Some (region_mean data mask roj)).
    { rewrite nth_error_map, Ej. reflexivity. }
    destruct (exact_cov_NaN (ncols data) (region_mean data mask roj)
                (region_mean_length data mask roj)) as [Hl Hr].
    rewrite (correlation_entry _ _ i j _ _ Hxi Hxj), (correlation_entry _ _ j i _ _ Hxj Hxi).
    rewrite (exact_correlation_NaN _ _ _ Hl), (exact_correlation_NaN _ _ _ Hr).
    split; reflexivity.
Qed.

Lemma roi_graph_empty_region_is_nan_witness :
  exists G,
    roi_graph blank_data blank_mask = Ok G
    /\ match G with
       | Matrix M =>
           length (rois blank_mask) <> 1
           /\ forall j, j < length (rois blank_mask) ->
                entry M 0 j = Some NaN /\ entry M j 0 = Some NaN
       | Scalar g => length (rois blank_mask) = 1 /\ g = NaN
       end.
Proof.
  apply (roi_graph_empty_region_is_nan blank_data blank_mask 0 (Fin 1)).
  - reflexivity.
  - repeat constructor.
  - reflexivity.
  - exact_eval. reflexivity.
  - intros v Hv. change (nrows blank_data) with 2 in Hv.
    destruct v as [|[|v]]; [exact_eval; reflexivity|exact_eval; reflexivity|lia].
Defined.

(** * The image helpers: loadnii, get_mask_dims, load_masked_data *)

Section VolumeFacts.
Context {num : Type} {N : Numeric num}.

Lemma chunks_length (n t : nat) : forall l : list num, length (chunks n t l) = n.
Proof. induction n as [|n IH]; intros l; simpl; [reflexivity|]. rewrite IH. reflexivity. Qed.

Lemma chunks_wf (n t : nat) : forall l : list num,
  length l = n * t -> Forall (fun r => length r = t) (chunks n t l).
Proof.
  induction n as [|n IH]; intros l Hl; simpl; constructor.
  - rewrite length_firstn. simpl in Hl. lia.
  - apply IH. rewrite length_skipn. simpl in Hl. lia.
Qed.

Lemma chunks_concat (n t : nat) : forall l : list num,
  length l = n * t -> concat (chunks n t l) = l.
Proof.
  induction n as [|n IH]; intros l Hl; simpl.
  - destruct l; [reflexivity|discriminate].
  - rewrite IH by (rewrite length_skipn; simpl in Hl; lia).
    apply firstn_skipn.
Qed.

Lemma chunks_one_column (l : list num) :
  chunks (length l) 1 l = map (fun x => [x]) l.
Proof. induction l as [|x l IH]; simpl; [reflexivity|]. rewrite IH. reflexivity. Qed.

Lemma where1_from_filter (b : list bool) : forall k,
  where1_from k b = filter (fun i => nth (i - k) b false) (seq k (length b)).
Proof.
  induction b as [|c b IH]; intros k; [reflexivity|].
  cbn [where1_from length seq filter]. rewrite Nat.sub_diag. cbn [nth].
  rewrite (IH (S k)).
  assert (E : filter (fun i => nth (i - S k) b false) (seq (S k) (length b))
              = filter (fun i => nth (i - k) (c :: b) false) (seq (S k) (length b))).
  { apply filter_ext_in. intros i Hi. apply in_seq in Hi.
    replace (i - k) with (S (i - S k)) by lia. reflexivity. }
  rewrite E. destruct c; reflexivity.
Qed.

Lemma where1_filter (b : list bool) :
  where1 b = filter (fun i => nth i b false) (seq 0 (length b)).
Proof.
  unfold where1. rewrite where1_from_filter. apply filter_ext. intros i.
  rewrite Nat.sub_0_r. reflexivity.
Qed.

Lemma where0_one_column (f : num -> bool) (l : list num) : forall k,
  where0_from k (map (map f) (map (fun x => [x]) l)) = where1_from k (map f l).
Proof.
  induction l as [|x l IH]; intros k; [reflexivity|].
  simpl. rewrite IH. destruct (f x); reflexivity.
Qed.

(** The positions of the positive values of a flat array. *)
Definition positive (l : list num) : list nat :=
  where1 (map (fun m => gtb m n0) l).

Lemma positive_sorted (l : list num) : StronglySorted lt (positive l).
Proof. unfold positive. rewrite where1_filter. apply filter_sorted, seq_sorted. Qed.

Lemma positive_In (l : list num) (i : nat) :
  In i (positive l) <-> i < length l /\ gtb (nth i l n0) n0 = true.
Proof.
  unfold positive. rewrite where1_filter, filter_In, in_seq, length_map.
  assert (E : i < length l ->
              nth i (map (fun m => gtb m n0) l) false = gtb (nth i l n0) n0).
  { intros Hi. rewrite (nth_indep _ false (gtb n0 n0)) by (rewrite length_map; exact Hi).
    apply (map_nth (fun m => gtb m n0)). }
  split; intros [Hi H]; (split; [lia|]).
  - rewrite <- E by lia. exact H.
  - rewrite E by lia. exact H.
Qed.

Lemma count_three (a b c : nat) : count [a; b; c] = a * b * c.
Proof. simpl. lia. Qed.

Lemma count_four (a b c d : nat) : count [a; b; c; d] = a * b * c * d.
Proof. simpl. lia. Qed.

Lemma reshape_ok (a : ndarray num) (dims : list nat) :
  count dims = length (flat a) -> reshape a dims = Returned (mkNd dims (flat a)).
Proof. intros H. unfold reshape. rewrite H, Nat.eqb_refl. reflexivity. Qed.

(** What [loadnii] returns for an image of three spatial dimensions and
    [T] values per voxel. *)
Lemma loadnii_four (A H : Type) (nifti : image num A H) (a b c T : nat) (dims : list nat) :
  length (flat (dataobj nifti)) = a * b * c * T ->
  shape (dataobj nifti) = dims ->
  (dims = [a; b; c; T] \/ (dims = [a; b; c] /\ T = 1)) ->
  loadnii nifti =
  Returned (mkArray T (chunks (a * b * c) T (flat (dataobj nifti))),
            affine nifti, header nifti, [a; b; c; T]).
Proof.
  intros Hlen Hs Hd. unfold loadnii. rewrite Hs.
  destruct Hd as [->|[-> ->]]; cbn [length Nat.ltb Nat.leb Nat.eqb app nth];
    rewrite reshape_ok by (simpl; lia); reflexivity.
Qed.

Lemma get_mask_dims_three (A H : Type) (nifti : image num A H) (a b c : nat) :
  length (flat (dataobj nifti)) = a * b * c ->
  shape (dataobj nifti) = [a; b; c] ->
  get_mask_dims nifti =
  Returned (positive (flat (dataobj nifti)), affine nifti, header nifti, [a; b; c]).
Proof.
  intros Hlen Hs. unfold get_mask_dims. rewrite Hs.
  cbn [length Nat.eqb negb nth].
  rewrite reshape_ok by (simpl; lia). cbn [and_then to_array2 shape flat rows].
  rewrite <- Hlen, chunks_one_column. unfold where0.
  rewrite where0_one_column. reflexivity.
Qed.

Lemma take_rows_of_matrix (n T : nat) (l : list num) (idx : list nat) :
  Forall (fun i => i < n) idx ->
  take_first_axis (mkNd [n; T] l) idx =
  Returned (mkNd [length idx; T]
                 (concat (map (voxel (mkArray T (chunks n T l))) idx))).
Proof.
  intros Hidx. unfold take_first_axis. cbn [shape flat count fold_right].
  rewrite Nat.mul_1_r.
  replace (forallb (fun i => Nat.ltb i n) idx) with true; [reflexivity|].
  symmetry. apply forallb_forall. intros i Hi. rewrite Forall_forall in Hidx.
  apply Nat.ltb_lt. auto.
Qed.

Lemma load_masked_data_four (func mask : ndarray num) (a b c T : nat) :
  length (flat func) = a * b * c * T ->
  length (flat mask) = a * b * c ->
  shape mask = [a; b; c] ->
  (shape func = [a; b; c; T] \/ (shape func = [a; b; c] /\ T = 1)) ->
  load_masked_data func mask =
  Returned (mkNd [length (positive (flat mask)); T]
              (concat (map (voxel (mkArray T (chunks (a * b * c) T (flat func))))
                           (positive (flat mask))))).
Proof.
  intros Hf Hm Hsm Hsf. unfold load_masked_data. rewrite Hsm.
  cbn [length Nat.ltb Nat.leb nth].
  rewrite reshape_ok by (simpl; lia). cbn [and_then flat].
  assert (Hidx : Forall (fun i => i < a * b * c) (positive (flat mask))).
  { apply Forall_forall. intros i Hi. apply positive_In in Hi. lia. }
  destruct Hsf as [->|[-> ->]]; cbn [length Nat.eqb nth];
    rewrite reshape_ok by (simpl; lia); cbn [and_then];
    apply take_rows_of_matrix; exact Hidx.
Qed.

Lemma filter_filter {X : Type} (f g : X -> bool) (l : list X) :
  filter g (filter f l) = filter (fun x => f x && g x) l.
Proof.
  induction l as [|x l IH]; simpl; [reflexivity|].
  destruct (f x); simpl; [destruct (g x)|]; rewrite IH; reflexivity.
Qed.
End VolumeFacts.

Section VolumeTheorems.
Context {num : Type} {N : Numeric num}.

Lemma mask_value_one_column (l : list num) (i : nat) :
  i < length l ->
  mask_value (mkArray 1 (chunks (length l) 1 l)) i = nth i l n0.
Proof.
  intros Hi. unfold mask_value. cbn [rows]. rewrite chunks_one_column.
  rewrite (nth_indep _ [] ((fun x => [x]) n0)) by (rewrite length_map; exact Hi).
  rewrite (map_nth (fun x => [x])). reflexivity.
Qed.

Lemma nth_map_positive (l : list num) (i : nat) :
  i < length l ->
  nth i (map (fun m => gtb m n0) l) false = gtb (nth i l n0) n0.
Proof.
  intros Hi. rewrite (nth_indep _ false (gtb n0 n0)) by (rewrite length_map; exact Hi).
  apply (map_nth (fun m => gtb m n0)).
Qed.

(** With its default rule and threshold, [maskdata] on a matrix and a
    one-column mask built from flat arrays keeps the positive positions
    of the mask whose rows do not sum to zero. *)
Lemma maskdata_default_on_chunks (n T : nat) (ff fm : list num) :
  length fm = n ->
  maskdata (mkArray T (chunks n T ff)) (mkArray 1 (chunks n 1 fm)) ">" (PyList [TNum n0])
  = Ok (mkArray T (map (voxel (mkArray T (chunks n T ff)))
                       (filter (fun i => negb (zero_sum (mkArray T (chunks n T ff)) i))
                               (positive fm))),
        filter (fun i => negb (zero_sum (mkArray T (chunks n T ff)) i)) (positive fm)).
Proof.
  intros Hn. set (data := mkArray T (chunks n T ff)).
  set (mask := mkArray 1 (chunks n 1 fm)).
  assert (Hrows : nrows data = nrows mask).
  { unfold nrows, data, mask. cbn [rows]. rewrite !chunks_length. reflexivity. }
  assert (Hwf : wf mask).
  { unfold wf, mask. cbn [rows ncols]. apply chunks_wf. lia. }
  rewrite (maskdata_spec data mask ">" [TNum n0] Hrows Hwf eq_refl eq_refl).
  assert (E : kept data mask ">" [TNum n0]
              = filter (fun i => negb (zero_sum data i)) (positive fm)).
  { unfold kept, positive. rewrite where1_filter, filter_filter, length_map.
    assert (Hd : nrows data = length fm).
    { unfold nrows, data. cbn [rows]. rewrite chunks_length. lia. }
    rewrite Hd. apply filter_ext_in. intros i Hi. apply in_seq in Hi.
    unfold selected. cbn [existsb meets]. rewrite orb_false_r.
    change (rule_op ">") with (@gtb num N).
    rewrite nth_map_positive by lia. unfold mask. rewrite <- Hn.
    rewrite mask_value_one_column by lia. reflexivity. }
  rewrite E. reflexivity.
Qed.
End VolumeTheorems.

(** X12.  [loadnii] accepts images of three or four dimensions and no
    others: below three and above four it raises its own Exception.  An
    accepted image comes back as a rectangular matrix with one row per
    voxel and one column per timepoint that holds the values of the
    image, all of them and in their order; the returned dimensions have
    four entries, a 1 being appended for a three-dimensional image. *)
Theorem loadnii_ranks_and_reshape :
  forall (num : Type) (N : Numeric num) (A H : Type) (nifti : image num A H),
    nd_ok (dataobj nifti) ->
    ((exists msg, loadnii nifti = Failed (Raised "Exception" msg))
     <-> (length (shape (dataobj nifti)) < 3 \/ 4 < length (shape (dataobj nifti))))
    /\ (3 <= length (shape (dataobj nifti)) <= 4 ->
        exists data dims,
          loadnii nifti = Returned (data, affine nifti, header nifti, dims)
          /\ length dims = 4
          /\ (dims = shape (dataobj nifti) \/ dims = shape (dataobj nifti) ++ [1])
          /\ wf data
          /\ nrows data = nth 0 dims 0 * nth 1 dims 0 * nth 2 dims 0
          /\ ncols data = nth 3 dims 0
          /\ concat (rows data) = flat (dataobj nifti)).
Proof.
  intros num N A H nifti Hok. unfold nd_ok in Hok.
  destruct (shape (dataobj nifti)) as [|a [|b [|c [|d [|e rest]]]]] eqn:Hs.
  1-3: (split; [split; [intros _; simpl; lia|intros _; unfold loadnii; rewrite Hs;
                         eexists; reflexivity]
               |simpl; lia]).
  - assert (Hlen : length (flat (dataobj nifti)) = a * b * c * 1)
      by (rewrite Hok, count_three; lia).
    pose proof (loadnii_four A H nifti a b c 1 _ Hlen Hs (or_intror (conj eq_refl eq_refl)))
      as E.
    split; [split; [intros [msg Hm]; rewrite E in Hm; discriminate|simpl; lia]|].
    intros _. do 2 eexists. split; [exact E|].
    split; [reflexivity|]. split; [right; reflexivity|].
    split; [apply chunks_wf; exact Hlen|].
    split; [unfold nrows; cbn [rows]; rewrite chunks_length; reflexivity|].
    split; [reflexivity|]. apply chunks_concat. exact Hlen.
  - assert (Hlen : length (flat (dataobj nifti)) = a * b * c * d)
      by (rewrite Hok, count_four; lia).
    pose proof (loadnii_four A H nifti a b c d _ Hlen Hs (or_introl eq_refl)) as E.
    split; [split; [intros [msg Hm]; rewrite E in Hm; discriminate|simpl; lia]|].
    intros _. do 2 eexists. split; [exact E|].
    split; [reflexivity|]. split; [left; reflexivity|].
    split; [apply chunks_wf; exact Hlen|].
    split; [unfold nrows; cbn [rows]; rewrite chunks_length; reflexivity|].
    split; [reflexivity|]. apply chunks_concat. exact Hlen.
  - split; [split; [intros _; simpl; lia|intros _; unfold loadnii; rewrite Hs;
                     eexists; reflexivity]
           |simpl; lia].
Qed.

(** X13.  [get_mask_dims] accepts three-dimensional masks only, raising
    its own Exception otherwise.  For an accepted mask the returned
    indices are strictly increasing and are exactly the flat positions
    whose value is greater than zero; the dimensions come back as they
    were. *)
Theorem get_mask_dims_positive_positions :
  forall (num : Type) (N : Numeric num) (A H : Type) (nifti : image num A H),
    nd_ok (dataobj nifti) ->
    ((exists msg, get_mask_dims nifti = Failed (Raised "Exception" msg))
     <-> length (shape (dataobj nifti)) <> 3)
    /\ (length (shape (dataobj nifti)) = 3 ->
        exists idx,
          get_mask_dims nifti
          = Returned (idx, affine nifti, header nifti, shape (dataobj nifti))
          /\ StronglySorted lt idx
          /\ forall i, In i idx <->
               (i < length (flat (dataobj nifti))
                /\ gtb (nth i (flat (dataobj nifti)) n0) n0 = true)).
Proof.
  intros num N A H nifti Hok. unfold nd_ok in Hok.
  destruct (Nat.eq_dec (length (shape (dataobj nifti))) 3) as [H3|H3].
  - destruct (shape (dataobj nifti)) as [|a [|b [|c [|d rest]]]] eqn:Hs;
      try discriminate.
    assert (Hlen : length (flat (dataobj nifti)) = a * b * c)
      by (rewrite Hok, count_three; reflexivity).
    pose proof (get_mask_dims_three A H nifti a b c Hlen Hs) as E.
    split; [split; [intros [msg Hm]; rewrite E in Hm; discriminate|intros Hne; contradiction]|].
    intros _. eexists. split; [exact E|].
    split; [apply positive_sorted|apply positive_In].
  - split; [|intros Hc; contradiction].
    split; [intros _; exact H3|]. intros _.
    unfold get_mask_dims. apply Nat.eqb_neq in H3. rewrite H3. eexists. reflexivity.
Qed.

(** X14.  A functional image of three or four dimensions and a
    three-dimensional mask on the same grid: [load_masked_data] returns,
    as a two-dimensional array, the rows of the matrix [loadnii] makes
    of the functional image at the indices [get_mask_dims] reports for
    the mask, in that order; so row [k] of the loaded data belongs to
    voxel [idx[k]]. *)
Theorem load_masked_data_rows_follow_mask_indices :
  forall (num : Type) (N : Numeric num) (A H : Type)
         (func mask : image num A H) (a b c T : nat),
    nd_ok (dataobj func) -> nd_ok (dataobj mask) ->
    shape (dataobj mask) = [a; b; c] ->
    (shape (dataobj func) = [a; b; c; T]
     \/ (shape (dataobj func) = [a; b; c] /\ T = 1)) ->
    exists data dims idx,
      loadnii func = Returned (data, affine func, header func, dims)
      /\ get_mask_dims mask = Returned (idx, affine mask, header mask, [a; b; c])
      /\ load_masked_data (dataobj func) (dataobj mask)
         = Returned (mkNd [length idx; T] (concat (map (voxel data) idx)))
      /\ Forall (fun i => i < nrows data) idx.
Proof.
  intros num N A H func mask a b c T Hf Hm Hsm Hsf. unfold nd_ok in Hf, Hm.
  assert (Hlm : length (flat (dataobj mask)) = a * b * c)
    by (rewrite Hm, Hsm, count_three; reflexivity).
  assert (Hlf : length (flat (dataobj func)) = a * b * c * T).
  { rewrite Hf. destruct Hsf as [->|[-> ->]]; [apply count_four|rewrite count_three; lia]. }
  do 3 eexists.
  split; [apply (loadnii_four A H func a b c T _ Hlf eq_refl Hsf)|].
  split; [apply (get_mask_dims_three A H mask a b c Hlm Hsm)|].
  split; [apply (load_masked_data_four _ _ a b c T Hlf Hlm Hsm Hsf)|].
  apply Forall_forall. intros i Hi. apply positive_In in Hi.
  unfold nrows. cbn [rows]. rewrite chunks_length. lia.
Qed.

(** X15.  On what [loadnii] makes of a functional image and of a mask
    on the same grid, [maskdata] with its default rule and threshold
    (greater than zero) passes its shape checks and keeps the voxels
    [get_mask_dims] reports for the mask, less those whose time series
    sums to zero. *)
Theorem maskdata_defaults_on_loaded_images :
  forall (num : Type) (N : Numeric num) (A H : Type)
         (func mask : image num A H) (a b c T : nat),
    nd_ok (dataobj func) -> nd_ok (dataobj mask) ->
    shape (dataobj mask) = [a; b; c] ->
    (shape (dataobj func) = [a; b; c; T]
     \/ (shape (dataobj func) = [a; b; c] /\ T = 1)) ->
    exists data dims mask2 dims2 idx out,
      loadnii func = Returned (data, affine func, header func, dims)
      /\ loadnii mask = Returned (mask2, affine mask, header mask, dims2)
      /\ get_mask_dims mask = Returned (idx, affine mask, header mask, [a; b; c])
      /\ maskdata data mask2 ">" (PyList [TNum n0])
         = Ok (out, filter (fun i => negb (zero_sum data i)) idx)
      /\ rows out = map (voxel data) (filter (fun i => negb (zero_sum data i)) idx).
Proof.
  intros num N A H func mask a b c T Hf Hm Hsm Hsf. unfold nd_ok in Hf, Hm.
  assert (Hlm : length (flat (dataobj mask)) = a * b * c)
    by (rewrite Hm, Hsm, count_three; reflexivity).
  assert (Hlm1 : length (flat (dataobj mask)) = a * b * c * 1) by lia.
  assert (Hlf : length (flat (dataobj func)) = a * b * c * T).
  { rewrite Hf. destruct Hsf as [->|[-> ->]]; [apply count_four|rewrite count_three; lia]. }
  do 6 eexists.
  split; [apply (loadnii_four A H func a b c T _ Hlf eq_refl Hsf)|].
  split; [apply (loadnii_four A H mask a b c 1 _ Hlm1 Hsm
                   (or_intror (conj eq_refl eq_refl)))|].
  split; [apply (get_mask_dims_three A H mask a b c Hlm Hsm)|].
  split; [apply (maskdata_default_on_chunks (a * b * c) T _ _ Hlm)|].
  reflexivity.
Qed.

Lemma loadnii_ranks_and_reshape_witness :
  ((exists msg, loadnii scenario_func_image = Failed (Raised "Exception" msg))
   <-> (length (shape (dataobj scenario_func_image)) < 3
        \/ 4 < length (shape (dataobj scenario_func_image))))
  /\ (3 <= length (shape (dataobj scenario_func_image)) <= 4 ->
      exists data dims,
        loadnii scenario_func_image
        = Returned (data, affine scenario_func_image, header scenario_func_image, dims)
        /\ length dims = 4
        /\ (dims = shape (dataobj scenario_func_image)
            \/ dims = shape (dataobj scenario_func_image) ++ [1])
        /\ wf data
        /\ nrows data = nth 0 dims 0 * nth 1 dims 0 * nth 2 dims 0
        /\ ncols data = nth 3 dims 0
        /\ concat (rows data) = flat (dataobj scenario_func_image)).
Proof.
  apply (loadnii_ranks_and_reshape float float64 unit unit scenario_func_image).
  reflexivity.
Defined.

Lemma get_mask_dims_positive_positions_witness :
  ((exists msg, get_mask_dims scenario_mask_image = Failed (Raised "Exception" msg))
   <-> length (shape (dataobj scenario_mask_image)) <> 3)
  /\ (length (shape (dataobj scenario_mask_image)) = 3 ->
      exists idx,
        get_mask_dims scenario_mask_image
        = Returned (idx, affine scenario_mask_image, header scenario_mask_image,
                    shape (dataobj scenario_mask_image))
        /\ StronglySorted lt idx
        /\ forall i, In i idx <->
             (i < length (flat (dataobj scenario_mask_image))
              /\ gtb (nth i (flat (dataobj scenario_mask_image)) n0) n0 = true)).
Proof.
  apply (get_mask_dims_positive_positions float float64 unit unit scenario_mask_image).
  reflexivity.
Defined.

Lemma load_masked_data_rows_follow_mask_indices_witness :
  exists data dims idx,
    loadnii scenario_func_image
    = Returned (data, affine scenario_func_image, header scenario_func_image, dims)
    /\ get_mask_dims scenario_mask_image
       = Returned (idx, affine scenario_mask_image, header scenario_mask_image, [2; 1; 2])
    /\ load_masked_data (dataobj scenario_func_image) (dataobj scenario_mask_image)
       = Returned (mkNd [length idx; 3] (concat (map (voxel data) idx)))
    /\ Forall (fun i => i < nrows data) idx.
Proof.
  apply (load_masked_data_rows_follow_mask_indices float float64 unit unit
           scenario_func_image scenario_mask_image 2 1 2 3).
  - reflexivity.
  - reflexivity.
  - reflexivity.
  - left. reflexivity.
Defined.

Lemma maskdata_defaults_on_loaded_images_witness :
  exists data dims mask2 dims2 idx out,
    loadnii scenario_func_image
    = Returned (data, affine scenario_func_image, header scenario_func_image, dims)
    /\ loadnii scenario_mask_image
       = Returned (mask2, affine scenario_mask_image, header scenario_mask_image, dims2)
    /\ get_mask_dims scenario_mask_image
       = Returned (idx, affine scenario_mask_image, header scenario_mask_image, [2; 1; 2])
    /\ maskdata data mask2 ">" (PyList [TNum n0])
       = Ok (out, filter (fun i => negb (zero_sum data i)) idx)
    /\ rows out = map (voxel data) (filter (fun i => negb (zero_sum data i)) idx).
Proof.
  apply (maskdata_defaults_on_loaded_images float float64 unit unit
           scenario_func_image scenario_mask_image 2 1 2 3).
  - reflexivity.
  - reflexivity.
  - reflexivity.
  - left. reflexivity.
Defined.

(** The scenario through the image helpers, in binary64: the loaded data
    has the rows of all four voxels; with the default rule [maskdata]
    drops voxel 1, whose series is all zero. *)
Example image_helpers_scenario :
  load_masked_data (dataobj scenario_func_image) (dataobj scenario_mask_image)
  = Returned (mkNd [4; 3] [1; 2; 3; 0; 0; 0; 4; 5; 6; 7; 8; 9]%float)
  /\ get_mask_dims scenario_mask_image = Returned ([0; 1; 2; 3], tt, tt, [2; 1; 2])
  /\ (r <- maskdata scenario_data scenario_mask ">" (PyList [TNum 0%float]) ;;
      Ok (snd r)) = Ok [0; 2; 3].
Proof. repeat split; reflexivity. Qed.

(** * The directory and name helpers: get_subj, mangle_string *)

Section StringOrder.

Lemma ascii_compare_refl (x : ascii) : Ascii.compare x x = Eq.
Proof. unfold Ascii.compare. apply N.compare_refl. Qed.

Lemma ascii_compare_Lt_trans (x y z : ascii) :
  Ascii.compare x y = Lt -> Ascii.compare y z = Lt -> Ascii.compare x z = Lt.
Proof.
  unfold Ascii.compare. rewrite !N.compare_lt_iff. apply N.lt_trans.
Qed.

Lemma string_compare_Lt_trans (a : string) : forall b c,
  String.compare a b = Lt -> String.compare b c = Lt -> String.compare a c = Lt.
Proof.
  induction a as [|x a IH]; intros [|y b] [|z c]; simpl; try discriminate; auto.
  destruct (Ascii.compare x y) eqn:E1; try discriminate;
    destruct (Ascii.compare y z) eqn:E2; try discriminate; intros H1 H2.
  - apply Ascii.compare_eq_iff in E1, E2. subst. rewrite ascii_compare_refl.
    eapply IH; eassumption.
  - apply Ascii.compare_eq_iff in E1. subst. rewrite E2. reflexivity.
  - apply Ascii.compare_eq_iff in E2. subst. rewrite E1. reflexivity.
  - rewrite (ascii_compare_Lt_trans _ _ _ E1 E2). reflexivity.
Qed.

Lemma string_ltb_Lt (a b : string) : String.ltb a b = true <-> String.compare a b = Lt.
Proof.
  unfold String.ltb. destruct (String.compare a b); split; intros H;
    try discriminate; reflexivity.
Qed.

Lemma string_ltb_asym (a b : string) : String.ltb a b = true -> String.ltb b a = false.
Proof.
  rewrite string_ltb_Lt. intros H. unfold String.ltb.
  rewrite String.compare_antisym, H. reflexivity.
Qed.

Lemma string_before_trans (a b c : string) :
  before String.ltb a b -> before String.ltb b c -> before String.ltb a c.
Proof.
  unfold before. intros Hba Hcb.
  destruct (String.ltb c a) eqn:Hca; [exfalso|reflexivity].
  apply string_ltb_Lt in Hca.
  destruct (String.compare c b) eqn:E.
  - apply String.compare_eq_iff in E. subst c.
    apply string_ltb_Lt in Hca. congruence.
  - apply string_ltb_Lt in E. congruence.
  - assert (Hbc : String.compare b c = Lt).
    { rewrite String.compare_antisym, E. reflexivity. }
    pose proof (string_compare_Lt_trans _ _ _ Hbc Hca) as H.
    apply string_ltb_Lt in H. congruence.
Qed.

Lemma string_before_leb (a b : string) : before String.ltb a b -> String.leb a b = true.
Proof.
  unfold before, String.ltb, String.leb. rewrite (String.compare_antisym a b).
  destruct (String.compare b a); simpl; congruence.
Qed.

Lemma insert_perm {A : Type} (lt : A -> A -> bool) (x : A) (l : list A) :
  Permutation (insert lt x l) (x :: l).
Proof.
  induction l as [|h t IH]; simpl; [reflexivity|].
  destruct (lt x h); [reflexivity|].
  rewrite IH. apply perm_swap.
Qed.

Lemma sort_perm {A : Type} (lt : A -> A -> bool) (l : list A) :
  Permutation (sort lt l) l.
Proof.
  induction l as [|x l IH]; simpl; [reflexivity|].
  rewrite insert_perm. constructor. exact IH.
Qed.

Lemma filter_perm {A : Type} (f : A -> bool) (l l' : list A) :
  Permutation l l' -> Permutation (filter f l) (filter f l').
Proof.
  induction 1 as [|x l l' _ IH|x y l|l l' l'' _ IH1 _ IH2]; simpl.
  - constructor.
  - destruct (f x); [constructor|]; exact IH.
  - destruct (f x), (f y); try reflexivity. apply perm_swap.
  - etransitivity; eassumption.
Qed.
End StringOrder.

(** X16.  [get_subj] raises StopIteration when [os.walk] yields nothing.
    Otherwise it returns the names that are directories and do not
    start with a dot, each as often as it was listed, in ascending
    order. *)
Theorem get_subj_sorted_visible_directories :
  (forall isdir, get_subj None isdir = Failed (Raised "StopIteration" ""))
  /\ forall (dirnames : list string) (isdir : string -> bool),
       exists subjects,
         get_subj (Some dirnames) isdir = Returned subjects
         /\ StronglySorted (fun a b => String.leb a b = true) subjects
         /\ (forall x, In x subjects -> String.prefix "." x = false /\ isdir x = true)
         /\ Permutation subjects
              (filter (fun x => isdir x && negb (String.prefix "." x)) dirnames).
Proof.
  split; [reflexivity|]. intros dirnames isdir.
  eexists. split; [reflexivity|]. split; [|split].
  - apply sorted_weaken with (R := before String.ltb).
    + apply filter_sorted.
      apply (sort_sorted string String.ltb (fun _ _ => true)
               string_ltb_asym string_before_trans).
    + intros a b _. apply string_before_leb.
  - intros x Hx. apply filter_In in Hx as [Hx Hdot].
    apply negb_true_iff in Hdot. split; [exact Hdot|].
    apply (proj1 (sort_In string String.ltb (fun _ _ => true) x _)) in Hx.
    apply filter_In in Hx. tauto.
  - rewrite <- filter_filter. apply filter_perm, sort_perm.
Qed.

Section Strip.

Lemma lstrip_split (chars s : list ascii) :
  exists pre, s = pre ++ lstrip chars s /\ Forall (fun c => In c chars) pre.
Proof.
  induction s as [|c s IH]; simpl.
  - exists []. split; [reflexivity|constructor].
  - destruct (existsb (Ascii.eqb c) chars) eqn:E.
    + destruct IH as (pre & Hs & Hpre). exists (c :: pre). split.
      * simpl. rewrite <- Hs. reflexivity.
      * constructor; [|exact Hpre].
        apply existsb_exists in E as (x & Hx & Hcx).
        apply Ascii.eqb_eq in Hcx. subst. exact Hx.
    + exists []. split; [reflexivity|constructor].
Qed.

Lemma lstrip_head (chars s : list ascii) (c : ascii) :
  hd_error (lstrip chars s) = Some c -> ~ In c chars.
Proof.
  induction s as [|x s IH]; simpl; [discriminate|].
  destruct (existsb (Ascii.eqb x) chars) eqn:E; [exact IH|].
  simpl. intros H. injection H as <-. intros Hin.
  assert (existsb (Ascii.eqb x) chars = true); [|congruence].
  apply existsb_exists. exists x. split; [exact Hin|apply Ascii.eqb_refl].
Qed.

Lemma strip_split (chars s : list ascii) :
  exists pre post,
    s = pre ++ strip chars s ++ post
    /\ Forall (fun c => In c chars) pre /\ Forall (fun c => In c chars) post.
Proof.
  destruct (lstrip_split chars s) as (pre & Hs & Hpre).
  destruct (lstrip_split chars (rev (lstrip chars s))) as (tail & Hr & Htail).
  exists pre, (rev tail). split; [|split; [exact Hpre|]].
  - rewrite Hs at 1. f_equal. unfold strip.
    rewrite <- rev_app_distr, <- Hr, rev_involutive. reflexivity.
  - apply Forall_rev. exact Htail.
Qed.

Lemma strip_ends (chars s : list ascii) (c : ascii) :
  (hd_error (strip chars s) = Some c -> ~ In c chars)
  /\ (hd_error (rev (strip chars s)) = Some c -> ~ In c chars).
Proof.
  split.
  - destruct (lstrip_split chars (rev (lstrip chars s))) as (tail & Hr & _).
    assert (E : lstrip chars s = strip chars s ++ rev tail).
    { unfold strip. rewrite <- rev_app_distr, <- Hr, rev_involutive. reflexivity. }
    intros Hc. apply (lstrip_head chars s). rewrite E.
    destruct (strip chars s); [discriminate|exact Hc].
  - unfold strip. rewrite rev_involutive. apply lstrip_head.
Qed.

Lemma replace_char_spec (old new : ascii) (s : list ascii) :
  old <> new -> ~ In old (replace_char old new s).
Proof.
  intros Hne Hin. unfold replace_char in Hin. apply in_map_iff in Hin as (c & Hc & _).
  destruct (Ascii.eqb c old) eqn:E.
  - congruence.
  - apply Ascii.eqb_neq in E. congruence.
Qed.
End Strip.

(** X17.  The name [mangle_string] returns is the input with every
    space turned into a hyphen, less a run of punctuation and double
    quotes at the start and another at the end: it holds no space, it
    neither starts nor ends with a double quote, it is no longer than
    the input, and between those two runs every character stays, an
    underscore included. *)
Theorem mangle_string_trims_the_ends :
  forall text : string,
    let out := list_ascii_of_string (mangle_string text) in
    ~ In " "%char out
    /\ hd_error out <> Some double_quote
    /\ hd_error (rev out) <> Some double_quote
    /\ length out <= String.length text
    /\ exists pre post,
         replace_char " "%char "-"%char (list_ascii_of_string text) = pre ++ out ++ post
         /\ Forall (fun c => In c junk \/ c = double_quote) pre
         /\ Forall (fun c => In c junk \/ c = double_quote) post.
Proof.
  intros text out. unfold out, mangle_string.
  rewrite list_ascii_of_string_of_list_ascii.
  set (s0 := replace_char " "%char "-"%char (list_ascii_of_string text)).
  destruct (strip_split junk s0) as (p1 & q1 & H1 & Hp1 & Hq1).
  destruct (strip_split [double_quote] (strip junk s0)) as (p2 & q2 & H2 & Hp2 & Hq2).
  set (res := strip [double_quote] (strip junk s0)) in *.
  assert (Hsplit : s0 = (p1 ++ p2) ++ res ++ (q2 ++ q1)).
  { rewrite H1 at 1. rewrite H2 at 1. rewrite <- !app_assoc. reflexivity. }
  assert (Hquote : forall l, Forall (fun c => In c [double_quote]) l ->
                             Forall (fun c => In c junk \/ c = double_quote) l).
  { intros l. apply Forall_impl. intros c [<-|[]]. right. reflexivity. }
  assert (Hjunk : forall l, Forall (fun c => In c junk) l ->
                            Forall (fun c => In c junk \/ c = double_quote) l).
  { intros l. apply Forall_impl. intros c Hc. left. exact Hc. }
  split; [|split; [|split; [|split]]].
  - intros Hin. apply (replace_char_spec " "%char "-"%char (list_ascii_of_string text));
      [discriminate|].
    fold s0. rewrite Hsplit. apply in_or_app. right. apply in_or_app. left. exact Hin.
  - intros Hc. apply (proj1 (strip_ends [double_quote] (strip junk s0) double_quote) Hc).
    left. reflexivity.
  - intros Hc. apply (proj2 (strip_ends [double_quote] (strip junk s0) double_quote) Hc).
    left. reflexivity.
  - assert (Hlen : length s0 = String.length text).
    { unfold s0, replace_char. rewrite length_map.
      clear. induction text as [|c t IH]; simpl; [reflexivity|]. rewrite IH. reflexivity. }
    rewrite <- Hlen, Hsplit, !length_app. lia.
  - exists (p1 ++ p2), (q2 ++ q1). split; [exact Hsplit|].
    split; apply Forall_app; auto.
Qed.

(** * Means in exact arithmetic *)

Section ExactMeans.
Local Open Scope R_scope.

Lemma exact_add_zero (acc : xreal) : nadd acc (Fin 0) = acc.
Proof. destruct acc as [a|]; simpl; [|reflexivity]. rewrite Rplus_0_r. reflexivity. Qed.

(** Summing with the NaNs replaced by zero is summing without them. *)
Lemma exact_sum_skips_nan (col : list xreal) : forall acc,
  fold_left nadd (map (fun x => if isnan x then n0 else x) col) acc
  = fold_left nadd (filter (fun x => negb (isnan x)) col) acc.
Proof.
  induction col as [|x col IH]; intros acc; [reflexivity|].
  cbn [map filter fold_left]. destruct x as [r|].
  - rewrite exact_isnan. cbn [negb fold_left]. apply IH.
  - change (isnan NaN) with true. cbn [negb].
    change (@n0 xreal exact) with (Fin 0). rewrite exact_add_zero. apply IH.
Qed.

Lemma exact_nanmean1 (col : list xreal) :
  nanmean1 col = mean (filter (fun x => negb (isnan x)) col).
Proof.
  unfold nanmean1, mean, nsum. rewrite exact_sum_skips_nan. reflexivity.
Qed.

Lemma Rsum_map_div (m : R) (xs : list R) :
  Rsum (map (fun x => x / m) xs) = Rsum xs / m.
Proof.
  induction xs as [|x xs IH]; [unfold Rsum; simpl; unfold Rdiv; lra|].
  simpl. rewrite !Rsum_cons, IH. unfold Rdiv. lra.
Qed.

(** A row whose mean is a nonzero number, divided by that mean, has
    mean 1. *)
Lemma exact_mean_of_scaled_row (row : list xreal) (m : R) :
  mean row = Fin m -> m <> 0 ->
  mean (map (fun x => ndiv x (mean row)) row) = Fin 1.
Proof.
  intros Hm Hm0. rewrite Hm. unfold mean in Hm.
  apply exact_div_finite in Hm as (S & n & HS & Hn & Hn0 & ->).
  destruct (nsum_finite _ _ HS) as (xs & ->).
  rewrite exact_nsum in HS. injection HS as <-.
  rewrite length_map, exact_of_nat in Hn. injection Hn as <-.
  assert (E : map (fun x => ndiv x (Fin (Rsum xs / INR (length xs)))) (map Fin xs)
              = map Fin (map (fun x => x / (Rsum xs / INR (length xs))) xs)).
  { rewrite !map_map. apply map_ext. intros x. apply exact_div. exact Hm0. }
  rewrite E. unfold mean. rewrite exact_nsum, !length_map, exact_of_nat, Rsum_map_div.
  rewrite exact_div by exact Hn0. f_equal.
  assert (HS0 : Rsum xs <> 0).
  { intros H0. apply Hm0. rewrite H0. unfold Rdiv. lra. }
  field. split; assumption.
Qed.

End ExactMeans.

(** X18.  In exact arithmetic, on well-shaped input, each value of the
    series [get_mean_roi] returns is the plain mean of the values the
    selected voxels have at that timepoint, those that are NaN left out
    (so one NaN does not spoil a timepoint). *)
Theorem get_mean_roi_is_mean_without_nan :
  forall (data mask : array2 xreal) (val : label xreal),
    nrows data = nrows mask -> wf mask -> ncols mask = 1 ->
    exists out idx,
      maskdata data mask "=" (PyList [label_threshold val]) = Ok (out, idx)
      /\ get_mean_roi data mask val
         = Ok (map (fun j => mean (filter (fun x => negb (isnan x)) (column j out)))
                   (seq 0 (ncols data))).
Proof.
  intros data mask val Hn Hwf Hc.
  do 2 eexists. split; [apply (maskdata_spec data mask "=" _ Hn Hwf Hc eq_refl)|].
  rewrite (get_mean_roi_spec data mask val Hn Hwf Hc). f_equal.
  unfold nanmean_axis0. cbn [ncols]. apply map_ext. intros j. apply exact_nanmean1.
Qed.

Lemma get_mean_roi_is_mean_without_nan_witness :
  exists out idx,
    maskdata exact_data exact_mask "=" (PyList [label_threshold (LNum (Fin 2))])
    = Ok (out, idx)
    /\ get_mean_roi exact_data exact_mask (LNum (Fin 2))
       = Ok (map (fun j => mean (filter (fun x => negb (isnan x)) (column j out)))
                 (seq 0 (ncols exact_data))).
Proof.
  apply (get_mean_roi_is_mean_without_nan exact_data exact_mask (LNum (Fin 2))).
  - reflexivity.
  - repeat constructor.
  - reflexivity.
Defined.

(** X19.  In exact arithmetic, when every row of the data has a mean
    that is a nonzero number, [translate] without factors returns a
    matrix every row of which has mean 1 (not 0: the rows are divided by
    their mean, not shifted by it). *)
Theorem translate_no_factors_gives_unit_means :
  forall data : array2 xreal,
    (forall row, In row (rows data) -> exists m, mean row = Fin m /\ m <> 0%R) ->
    exists out,
      translate data [] = Ok out
      /\ length (rows out) = length (rows data)
      /\ forall row, In row (rows out) -> mean row = Fin 1.
Proof.
  intros data Hrows. exists (rows_divided data mean).
  split; [unfold translate; simpl; apply divide_by_column|].
  split; [apply length_map|].
  intros row Hrow. simpl in Hrow. apply in_map_iff in Hrow as (r & <- & Hr).
  destruct (Hrows r Hr) as (m & Hm & Hm0).
  apply (exact_mean_of_scaled_row r m Hm Hm0).
Qed.

Lemma translate_no_factors_gives_unit_means_witness :
  exists out,
    translate (mkArray 3 [[Fin 2; Fin 4; Fin 6]]) [] = Ok out
    /\ length (rows out) = length (rows (mkArray 3 [[Fin 2; Fin 4; Fin 6]]))
    /\ forall row, In row (rows out) -> mean row = Fin 1.
Proof.
  apply (translate_no_factors_gives_unit_means (mkArray 3 [[Fin 2; Fin 4; Fin 6]])).
  intros row [<-|[]]. exists 4%R. split; [|lra].
  exact_eval. f_equal. field.
Defined.

(** X20.  In exact arithmetic two scalings by one factor compose into
    one: dividing all values by [a] and then by [b] is dividing them by
    [a * b], for every data matrix and all factors, zero and NaN
    included. *)
Theorem translate_one_factor_composes :
  forall (data : array2 xreal) (a b : xreal),
    exists scaled,
      translate data [a] = Ok scaled
      /\ translate scaled [b] = translate data [nmul a b].
Proof.
  intros data a b. exists (rows_divided data (fun _ => a)).
  split; [unfold translate; simpl; apply divide_by_scalar|].
  unfold translate. cbn [length Nat.ltb Nat.leb Nat.eqb andb].
  rewrite !divide_by_scalar. f_equal. unfold rows_divided. cbn [ncols rows].
  f_equal. rewrite map_map. apply map_ext. intros r.
  rewrite map_map. apply map_ext. intros x. apply exact_div_div.
Qed.
